(** * py_shells: command resolution, aliases and completion

    A shallow embedding of [src/core/interpreter.py] and
    [src/core/utils.py].  The interpreter classes are mix-ins over Python's
    [cmd.Cmd]; what they share is the interpreter object: the table of its
    callable attributes (the methods of the class, shadowed by the functions
    bound on the instance), which [dir], [getattr], [setattr] and [delattr]
    read and write under the prefixes [do_], [alias_], [help_] and
    [complete_], and its data attributes.  Strings are ASCII byte strings;
    a Python [set] is a [gset], a [dict] a [gmap].
    Definitions come first, the properties after them. *)

From Stdlib Require Import ZArith String Ascii.
From stdpp Require Import base option list sorting gmap sets strings.

Local Open Scope string_scope.

(** ** Python [str] operations used by the interpreter *)

(** [s.startswith(p)] *)
Definition startswith (s p : string) : bool := String.prefix p s.

(** [sub in s] on strings: [sub] occurs in [s] as a contiguous substring. *)
Fixpoint str_in (sub s : string) : bool :=
  startswith s sub ||
  match s with
  | EmptyString => false
  | String _ s' => str_in sub s'
  end.

(** [s[n:]] *)
Fixpoint str_drop (n : nat) (s : string) : string :=
  match n, s with
  | O, _ => s
  | S _, EmptyString => EmptyString
  | S n', String _ s' => str_drop n' s'
  end.

(** [s.split(sep)] for a one-character separator: never empty, and
    adjacent separators delimit empty strings. *)
Fixpoint split (sep : ascii) (s : string) : list string :=
  match s with
  | EmptyString => [""]
  | String c s' =>
      if decide (c = sep) then "" :: split sep s'
      else match split sep s' with
           | w :: ws => String c w :: ws
           | [] => [String c ""]
           end
  end.

(** [c.isspace()] on the ASCII range: tab to carriage return, the four
    separators [0x1c]..[0x1f], and the blank. *)
Definition isspace (c : ascii) : bool :=
  let n := nat_of_ascii c in
  ((9 <=? n) && (n <=? 13) || (28 <=? n) && (n <=? 32))%nat.

(** [s.lstrip()], [s.rstrip()], [s.strip()] *)
Fixpoint lstrip (s : string) : string :=
  match s with
  | EmptyString => ""
  | String c s' => if isspace c then lstrip s' else s
  end.

Fixpoint rstrip (s : string) : string :=
  match s with
  | EmptyString => ""
  | String c s' =>
      match rstrip s' with
      | EmptyString => if isspace c then "" else String c ""
      | r => String c r
      end
  end.

Definition strip (s : string) : string := lstrip (rstrip s).

(** [''.join(parts)] *)
Definition join (parts : list string) : string := foldr String.append "" parts.

(** [sep.join(parts)] *)
Fixpoint join_sep (sep : string) (parts : list string) : string :=
  match parts with
  | [] => ""
  | [x] => x
  | x :: rest => x ++ sep ++ join_sep sep rest
  end.

(** [s.expandtabs()]: a tab fills up to the next multiple of eight
    columns; the column starts again after a line feed or a carriage
    return. *)
Fixpoint expandtabs_from (col : nat) (s : string) : string :=
  match s with
  | EmptyString => ""
  | String c s' =>
      if decide (c = "009"%char) then
        let incr := (8 - col mod 8)%nat in
        String.concat "" (replicate incr " ") ++ expandtabs_from (col + incr) s'
      else if decide (c = "010"%char ∨ c = "013"%char) then
        String c (expandtabs_from 0 s')
      else String c (expandtabs_from (S col) s')
  end.

Definition expandtabs (s : string) : string := expandtabs_from 0 s.

(** The line boundaries of [s.splitlines()] on the ASCII range: line
    feed, vertical tab, form feed, carriage return, and the separators
    [0x1c]..[0x1e]. *)
Definition is_linebreak (c : ascii) : bool :=
  let n := nat_of_ascii c in
  ((10 <=? n) && (n <=? 13) || (28 <=? n) && (n <=? 30))%nat.

(** [s.splitlines()]: a carriage return followed by a line feed is one
    boundary, and a boundary at the very end opens no further line. *)
Fixpoint splitlines (s : string) : list string :=
  match s with
  | EmptyString => []
  | String c s' =>
      if is_linebreak c then
        match s' with
        | String d s'' =>
            if decide (c = "013"%char ∧ d = "010"%char) then "" :: splitlines s''
            else "" :: splitlines s'
        | EmptyString => "" :: splitlines s'
        end
      else match splitlines s' with
           | [] => [String c ""]
           | l :: ls => String c l :: ls
           end
  end.

(** [l[i]] on a list, with Python's negative indices; [None] stands for
    [IndexError]. *)
Definition list_getitem {A} (l : list A) (i : Z) : option A :=
  if (0 <=? i)%Z then l !! Z.to_nat i
  else if (- Z.of_nat (length l) <=? i)%Z then l !! Z.to_nat (Z.of_nat (length l) + i)
  else None.

(** ** Python objects the interpreter handles *)

Inductive exn := AttributeError | IndexError | TypeError.

Inductive result (A : Type) :=
  | Ok (a : A)
  | Raise (e : exn).
Arguments Ok {A} a.
Arguments Raise {A} e.

(** What a handler or a method hands back. *)
Inductive pyval :=
  | PNone
  | PBool (b : bool)
  | PStr (s : string).

(** A function object as the interpreter sees it: it reads [__name__] and
    [__doc__], and calls it.  [__code__] stands for the body, so that two
    functions of one name are still told apart. *)
Record func := mkfunc {
  __name__ : string;
  __doc__ : option string;
  __code__ : nat
}.

Global Instance func_eq_dec : EqDecision func.
Proof. solve_decision. Defined.

(** [if doc:] *)
Definition truthy (doc : option string) : bool :=
  match doc with
  | Some (String _ _) => true
  | _ => false
  end.

(** ** [utils.trim_docstring] *)

Definition maxsize : N := 9223372036854775807.

(** [while trimmed and not trimmed[0]: trimmed.pop(0)] *)
Fixpoint pop_leading_blank (trimmed : list string) : list string :=
  match trimmed with
  | "" :: rest => pop_leading_blank rest
  | _ => trimmed
  end.

(** [while trimmed and not trimmed[-1]: trimmed.pop()] *)
Fixpoint pop_trailing_blank (trimmed : list string) : list string :=
  match trimmed with
  | [] => []
  | x :: rest =>
      match pop_trailing_blank rest with
      | [] => if decide (x = "") then [] else [x]
      | r => x :: r
      end
  end.

(** The indentation rule of PEP 257: the smallest indentation of the
    non-blank lines after the first is removed from each of them, the
    first line is stripped, and blank lines at both ends are dropped. *)
Definition trim_docstring (docstring : string) : string :=
  if decide (docstring = "") then ""
  else
    let lines := splitlines (expandtabs docstring) in
    let indent :=
      foldl (λ indent line,
               let stripped := lstrip line in
               if decide (stripped ≠ "") then
                 N.min indent (N.of_nat (String.length line - String.length stripped))
               else indent)
            maxsize (tail lines) in
    let trimmed := [strip (hd "" lines)] in
    let trimmed :=
      if (indent <? maxsize)%N then
        (trimmed ++ ((λ line, rstrip (str_drop (N.to_nat indent) line)) <$> tail lines))%list
      else trimmed in
    let trimmed := pop_trailing_blank trimmed in
    let trimmed := pop_leading_blank trimmed in
    join_sep (String "010"%char "") trimmed.

(** ** [CacheCompleteMix]: cached completion candidates *)

Module CacheCompleteMix.

(** The two attributes [__init__] creates: the private cache dictionary
    and the pluggable [completion_source]. *)
Record t := mk {
  cache : gmap string (list string);
  completion_source : string → list string
}.

(** [__init__]: an empty cache, and a source that offers nothing. *)
Definition init : t := mk ∅ (λ _, []).

(** [[i for i in {opt for opt in opts} if i.startswith(text) and i not in line]] *)
Definition candidates (opts : list string) (text line : string) : list string :=
  filter (λ i, startswith i text && negb (str_in i line))
         (elements (list_to_set opts : gset string)).

(** [_cache_completion]: the [try] body reads [self.__cache[key]]; the
    [KeyError] handler stores [self.completion_source(key)] under [key]
    and filters that. *)
Definition _cache_completion (self : t) (key text line : string)
    (begidx endidx : Z) : t * list string :=
  match cache self !! key with
  | Some opts => (self, candidates opts text line)
  | None =>
      let opts := completion_source self key in
      let self' := mk (<[key := opts]> (cache self)) (completion_source self) in
      (self', candidates opts text line)
  end.

(** One completion request, and a run of requests one after the other. *)
Record query := mkquery {
  q_key : string; q_text : string; q_line : string; q_begidx : Z; q_endidx : Z
}.

Definition ask (self : t) (q : query) : t * list string :=
  _cache_completion self (q_key q) (q_text q) (q_line q) (q_begidx q) (q_endidx q).

Definition ask_all (self : t) (qs : list query) : t :=
  foldl (λ s q, fst (ask s q)) self qs.

End CacheCompleteMix.

(** ** [AliasMix]: commands, aliases, completion, help *)

Module AliasMix.

(** The interpreter object.  Its callable attributes are kept in two
    tables: [cls] holds the methods the class (with its bases) defines,
    [inst] the functions bound on the instance, which are the entries of the
    instance dictionary that [setattr] and [delattr] of the source work on.
    Its data attributes are the other fields: [aliases] is the cached set of
    alias names, [completion_matches] is absent until [complete] stores it,
    [lastcmd] is the line [onecmd] dispatched last, and [stdout] is the text
    written to the output stream so far.  (The further data attributes of
    [cmd.Cmd], such as [stdin], [cmdqueue], [completekey] and [prompt], are
    read by [cmdloop] only and are left out.) *)
Record t := mk {
  cls : gmap string func;
  inst : gmap string func;
  aliases : gset string;
  SHOW_ALIAS : bool;
  completion_matches : option (list string);
  stdout : string;
  lastcmd : string
}.

Definition set_inst (self : t) (d : gmap string func) : t :=
  mk (cls self) d (aliases self) (SHOW_ALIAS self) (completion_matches self) (stdout self)
     (lastcmd self).
Definition set_aliases (self : t) (a : gset string) : t :=
  mk (cls self) (inst self) a (SHOW_ALIAS self) (completion_matches self) (stdout self)
     (lastcmd self).
Definition set_completion_matches (self : t) (l : list string) : t :=
  mk (cls self) (inst self) (aliases self) (SHOW_ALIAS self) (Some l) (stdout self)
     (lastcmd self).
(** [self.lastcmd = line] *)
Definition set_lastcmd (self : t) (line : string) : t :=
  mk (cls self) (inst self) (aliases self) (SHOW_ALIAS self) (completion_matches self)
     (stdout self) line.
(** [self.stdout.write(s)] *)
Definition write (self : t) (s : string) : t :=
  mk (cls self) (inst self) (aliases self) (SHOW_ALIAS self) (completion_matches self)
     (stdout self ++ s) (lastcmd self).

(** What the interpreter calls but does not define: the bodies of the
    handlers and completers, and the hooks of [cmd.Cmd] ([emptyline],
    which by default dispatches [lastcmd] again, [print_topics], the help
    headers).  A handler is handed the interpreter, [lastcmd] included. *)
Class Host := {
  call : func → list string → t → t * pyval;
  call_completer : func → string → string → Z → Z → t → t * list string;
  emptyline : t → t * pyval;
  print_topics : option string → list string → Z → Z → t → t;
  doc_leader : string;
  doc_header : option string;
  misc_header : option string;
  undoc_header : option string
}.

(** The state of the [readline] module that [complete] reads. *)
Record readline := mkrl {
  get_line_buffer : string;
  get_begidx : Z;
  get_endidx : Z
}.

Definition ALIAS_PREFIX : string := "alias_".
Definition nohelp (arg : string) : string := "*** No help on " ++ arg.
Definition identchars : string :=
  "abcdefghijklmnopqrstuvwxyzABCDEFGHIJKLMNOPQRSTUVWXYZ0123456789_".

(** *** Attribute access *)

(** The attribute table holds the callables.  The source reads [dir] and
    [getattr] only under the prefixes [do_], [alias_], [help_] and
    [complete_], and no data attribute of [cmd.Cmd] or of these classes has
    a name of that form, so leaving the data attributes out of the table
    changes none of the lookups.  Instance entries shadow class entries. *)
Definition attrs (self : t) : gmap string func := inst self ∪ cls self.

(** [dir(self)], as far as the callables go: their names, each once,
    sorted. *)
Definition dir (self : t) : list string :=
  merge_sort String.le (elements (dom (attrs self))).

(** [getattr(self, name)] for the name of a callable; [None] stands for
    [AttributeError]. *)
Definition getattr (self : t) (name : string) : option func := attrs self !! name.

Definition hasattr (self : t) (name : string) : bool :=
  bool_decide (is_Some (getattr self name)).

Definition setattr (self : t) (name : string) (v : func) : t :=
  set_inst self (<[name := v]> (inst self)).

(** [delattr(self, name)], likewise: it removes an instance entry, and raises
    [AttributeError] ([None]) when the instance has none, whether or not
    the class defines the name. *)
Definition delattr (self : t) (name : string) : option t :=
  match inst self !! name with
  | Some _ => Some (set_inst self (delete name (inst self)))
  | None => None
  end.

(** [getattr(self, a).__doc__ is not None] *)
Definition doc_is_not_None (self : t) (a : string) : bool :=
  match getattr self a with
  | Some f => bool_decide (is_Some (__doc__ f))
  | None => false
  end.

(** *** The methods of the class *)

Definition _wrap_alias (alias : string) : string := ALIAS_PREFIX ++ alias.

Definition get_names (self : t) : list string := dir self.

Definition get_aliases (self : t) : gset string :=
  list_to_set (str_drop 6 <$> filter (λ i, startswith i ALIAS_PREFIX) (get_names self)).

(** [__init__]: the alias names are taken once, from what the class
    defines; [cmd.Cmd.__init__] only sets up the streams.  [lastcmd] starts
    as the empty string the class [cmd.Cmd] has for it. *)
Definition __init__ (class : gmap string func) (show_alias : bool) : t :=
  let self := mk class ∅ ∅ show_alias None "" "" in
  set_aliases self (get_aliases self).

Definition completedefault (self : t) (text line : string) (begidx endidx : Z)
    : list string :=
  str_drop 3 <$>
    filter (λ i, startswith i "do_" && negb (str_in "EOF" i)) (get_names self).

Definition completenames (self : t) (text : string) : list string :=
  let names := get_names self in
  let cmds :=
    str_drop 3 <$>
      filter (λ a, startswith a ("do_" ++ text) && doc_is_not_None self a) names in
  let aliases :=
    if SHOW_ALIAS self then
      str_drop 6 <$>
        filter (λ a, startswith a (ALIAS_PREFIX ++ text) && doc_is_not_None self a) names
    else [] in
  (cmds ++ aliases)%list.

(** [c in self.identchars] *)
Definition in_identchars (c : ascii) : bool := str_in (String c "") identchars.

Fixpoint span_identchars (s : string) : string * string :=
  match s with
  | EmptyString => ("", "")
  | String c s' =>
      if in_identchars c then
        let '(a, b) := span_identchars s' in (String c a, b)
      else ("", s)
  end.

(** [cmd.Cmd.parseline], which the class inherits: the command is the
    longest run of [identchars] at the head of the stripped line.  The
    first component is [None] where Python returns [None, None, line]. *)
Definition parseline (self : t) (line : string) : option (string * string) * string :=
  let line := strip line in
  let scan line :=
    let '(cmd, rest) := span_identchars line in (Some (cmd, strip rest), line) in
  match line with
  | EmptyString => (None, line)
  | String c rest =>
      if decide (c = "?"%char) then scan ("help " ++ rest)
      else if decide (c = "!"%char) then
        if hasattr self "do_shell" then scan ("shell " ++ rest) else (None, line)
      else scan line
  end.

Section methods.
Context `{Host}.

(** [default]: every attribute named [do_<cmd>] or [alias_<cmd>] is
    looked up, in the order of [get_names], and the first is called.
    With [cmd] being [None] the comparison ['do_' + cmd] raises. *)
Definition default (self : t) (line : string) : t * result pyval :=
  match parseline self line with
  | (None, _) => (self, Raise TypeError)
  | (Some (cmd, arg), line) =>
      let func :=
        omap (getattr self)
             (filter (λ n, n = "do_" ++ cmd ∨ n = _wrap_alias cmd) (get_names self)) in
      match func with
      | f :: _ => let '(self', r) := call f [arg] self in (self', Ok r)
      | [] => (write self ("*** Unknown syntax: " ++ line ++ "
"), Ok PNone)
      end
  end.

(** The two assignments to [lastcmd] in [cmd.Cmd.onecmd]: the line as
    [parseline] returned it, and the empty string for the line [EOF]. *)
Definition remember (self : t) (line : string) : t :=
  let self := set_lastcmd self line in
  if decide (line = "EOF") then set_lastcmd self "" else self.

(** [cmd.Cmd.onecmd], the entry point that reaches [default]: an empty
    line goes to [emptyline] and a line without a command word to
    [default]; otherwise the line is recorded in [lastcmd], and then a
    command of the class is called directly and everything else goes to
    [default]. *)
Definition onecmd (self : t) (line : string) : t * result pyval :=
  match parseline self line with
  | (_, EmptyString) => let '(self', r) := emptyline self in (self', Ok r)
  | (None, line) => default self line
  | (Some (cmd, arg), line) =>
      let self := remember self line in
      if decide (cmd = "") then default self line
      else match getattr self ("do_" ++ cmd) with
           | Some func => let '(self', r) := call func [arg] self in (self', Ok r)
           | None => default self line
           end
  end.

(** The completion function [complete] selects when [state] is 0. *)
Inductive compfunc :=
  | Completedefault
  | Completenames
  | Completer (f : func).

Definition select_compfunc (self : t) (line : string) (begidx : Z)
    : result compfunc :=
  if (0 <? begidx)%Z then
    match parseline self line with
    | (None, _) => Raise TypeError
    | (Some (cmd, _), _) =>
        if decide (cmd = "") then Ok Completedefault
        else match getattr self ("complete_" ++ cmd) with
             | Some f => Ok (Completer f)
             | None =>
                 match getattr self (_wrap_alias cmd) with
                 | Some a =>
                     match getattr self ("complete_" ++ str_drop 3 (__name__ a)) with
                     | Some f => Ok (Completer f)
                     | None => Ok Completedefault
                     end
                 | None => Ok Completedefault
                 end
             end
    end
  else Ok Completenames.

Definition run_compfunc (c : compfunc) (self : t) (text line : string)
    (begidx endidx : Z) : t * list string :=
  match c with
  | Completedefault => (self, completedefault self text line begidx endidx)
  | Completenames => (self, completenames self text)
  | Completer f => call_completer f text line begidx endidx self
  end.

(** [self.completion_matches[state]], [IndexError] turned into [None];
    the attribute itself may still be missing. *)
Definition lookup_match (self : t) (state : Z) : t * result (option string) :=
  match completion_matches self with
  | Some l => (self, Ok (list_getitem l state))
  | None => (self, Raise AttributeError)
  end.

Definition complete (rl : readline) (self : t) (text : string) (state : Z)
    : t * result (option string) :=
  if decide (state = 0%Z) then
    let origline := get_line_buffer rl in
    let line := lstrip origline in
    let stripped := (Z.of_nat (String.length origline) - Z.of_nat (String.length line))%Z in
    let begidx := (get_begidx rl - stripped)%Z in
    let endidx := (get_endidx rl - stripped)%Z in
    match select_compfunc self line begidx with
    | Raise e => (self, Raise e)
    | Ok c =>
        let '(self', matches) := run_compfunc c self text line begidx endidx in
        lookup_match (set_completion_matches self' matches) state
    end
  else lookup_match self state.

(** The bookkeeping of the topic listing of [do_help]. *)
Record topics := mktopics {
  prevname : string;
  cmds_doc : list string;
  cmds_undoc : list string;
  help : list string
}.

Definition collect_help (names : list string) : list string :=
  foldl (λ help name,
           if startswith name "help_" then
             let k := str_drop 5 name in
             if bool_decide (k ∈ help) then help else (help ++ [k])%list
           else help) [] names.

Definition classify (self : t) (acc : topics) (name : string) : topics :=
  if startswith name "do_" then
    if decide (name = prevname acc) then acc
    else
      let cmd := str_drop 3 name in
      if bool_decide (cmd ∈ help acc) then
        mktopics name (cmds_doc acc ++ [cmd])%list (cmds_undoc acc)
                 (filter (λ k, k ≠ cmd) (help acc))
      else if truthy (getattr self name ≫= __doc__) then
        mktopics name (cmds_doc acc ++ [cmd])%list (cmds_undoc acc) (help acc)
      else
        mktopics name (cmds_doc acc) (cmds_undoc acc ++ [cmd])%list (help acc)
  else acc.

Definition help_of (self : t) (doc : option string) (arg : string) : t :=
  if truthy doc then
    write self (trim_docstring (from_option id "" doc) ++ "
")
  else
    write self (nohelp arg ++ "
").

Definition do_help (self : t) (arg : string) : t * result pyval :=
  if decide (arg ≠ "") then
    match getattr self ("help_" ++ arg) with
    | Some func => let '(self', _) := call func [] self in (self', Ok PNone)
    | None =>
        match getattr self ("do_" ++ arg) with
        | Some f => (help_of self (__doc__ f) arg, Ok PNone)
        | None =>
            match getattr self (_wrap_alias arg) with
            | Some f => (help_of self (__doc__ f) arg, Ok PNone)
            | None => (write self (nohelp arg ++ "
"), Ok PNone)
            end
        end
    end
  else
    let names := get_names self in
    let help0 := collect_help names in
    let names := merge_sort String.le names in
    let acc := foldl (classify self) (mktopics "" [] [] help0) names in
    let self := write self (doc_leader ++ "
") in
    let self := print_topics doc_header (cmds_doc acc) 15 80 self in
    let self := print_topics misc_header (help acc) 15 80 self in
    let self := print_topics undoc_header (cmds_undoc acc) 15 80 self in
    (self, Ok PNone).

End methods.

End AliasMix.

(** ** [AliasCmdInterpreter]: the [alias] command *)

Module AliasCmdInterpreter.
Import AliasMix.

Definition dquote : string := String "034"%char "".

(** The commands the class and its bases define, with the doc strings
    of the source; [complete_help] comes from [cmd.Cmd]. *)
Definition do_EOF_func : func := mkfunc "do_EOF" None 0.

Definition do_alias_func : func :=
  mkfunc "do_alias" (Some "
        Set/clear aliases.
        If no options are provided, print aliases and their corresponding commands.

        Usage:
          alias [alias] [command]

        Options:
          [alias]: alias to create
          [command]: command to map [alias] to.
                     If blank it will clear the alias for [alias]
        ") 1.

Definition do_help_func : func :=
  mkfunc "do_help"
    (Some ("List available commands with " ++ dquote ++ "help" ++ dquote ++
           " or detailed help with " ++ dquote ++ "help cmd" ++ dquote ++ ".")) 2.

Definition complete_help_func : func := mkfunc "complete_help" None 3.

Definition methods : gmap string func :=
  {[ "do_EOF" := do_EOF_func;
     "do_alias" := do_alias_func;
     "do_help" := do_help_func;
     "complete_help" := complete_help_func ]}.

(** [do_EOF], a static method taking any arguments. *)
Definition do_EOF (self : t) (args : list string) : t * result pyval :=
  (self, Ok (PBool true)).

(** The first part of [do_alias]: the target [args[1]] is looked up as a
    command, then as an alias; a missing [args[1]] and a missing attribute
    both leave [cmd] at [None]. *)
Definition resolve_target (self : t) (args : list string) : option func :=
  match args !! 1 with
  | Some target =>
      match getattr self ("do_" ++ target) with
      | Some c => Some c
      | None => getattr self (_wrap_alias target)
      end
  | None => None
  end.

(** [do_alias(arg, suppress=...)].  A non-empty argument is split at
    blanks; a target found is bound to [alias_<args[0]>], and without one
    the binding is deleted, each followed by recomputing [aliases].  An
    empty argument lists the aliases of [self.aliases]. *)
Definition do_alias (self : t) (arg : string) (suppress : bool) : t * result pyval :=
  if decide (arg ≠ "") then
    let args := split " " arg in
    let cmd := resolve_target self args in
    let new_alias := _wrap_alias (hd "" args) in
    match cmd with
    | Some c =>
        let self := setattr self new_alias c in
        (set_aliases self (get_aliases self), Ok PNone)
    | None =>
        match delattr self new_alias with
        | Some self => (set_aliases self (get_aliases self), Ok PNone)
        | None => (self, Ok PNone)
        end
    end
  else
    match mapM (λ alias,
                  f ← getattr self (_wrap_alias alias);
                  Some (alias ++ ": " ++ str_drop 3 (__name__ f) ++ "
"))
               (elements (aliases self)) with
    | Some parts =>
        let alias_str := join parts in
        if suppress then (self, Ok (PStr alias_str))
        else (write self alias_str, Ok PNone)
    | None => (self, Raise AttributeError)
    end.

Definition __default_alias (self : t) (force : bool) : result t :=
  if negb (hasattr self (_wrap_alias "a")) || force then
    match getattr self "do_alias" with
    | Some f => Ok (setattr self (_wrap_alias "a") f)
    | None => Raise AttributeError
    end
  else Ok self.

(** [__init__(enable_alias, force_alias)] on a class whose table is
    [class]: the base initialiser, then the default alias. *)
Definition __init__ (class : gmap string func) (show_alias : bool)
    (enable_alias force_alias : bool) : result t :=
  let self := AliasMix.__init__ class show_alias in
  if enable_alias then __default_alias self force_alias else Ok self.

(** The class table of [AliasCmdInterpreter] itself, and of a subclass
    that adds (or overrides) [extra]. *)
Definition subclass (extra : gmap string func) : gmap string func := extra ∪ methods.

End AliasCmdInterpreter.

(** ** [CacheCompleteMix]: its own name completion *)

(** The two completion methods [CacheCompleteMix] defines beside the
    cache, over the same attribute table.  The class does not define
    [get_names]; on its own it inherits [cmd.Cmd.get_names], which lists
    the class only: [dir(self.__class__)]. *)
Module CacheCompleteNames.
Import AliasMix.

Definition get_names (self : t) : list string :=
  merge_sort String.le (elements (dom (cls self))).

Definition completedefault (self : t) (text line : string) (begidx endidx : Z)
    : list string :=
  str_drop 3 <$>
    filter (λ i, startswith i "do_" && negb (str_in "EOF" i)) (get_names self).

Definition completenames (self : t) (text : string) : list string :=
  str_drop 3 <$>
    filter (λ a, startswith a ("do_" ++ text) && doc_is_not_None self a) (get_names self).

End CacheCompleteNames.

(** ** [HideNoneDocMix]: help sections without a header *)

Module HideNoneDocMix.
Import AliasMix.

(** [print_topics]: with a header, the inherited [print_topics]; with
    [None] for a header, nothing. *)
Definition print_topics
    (super_print_topics : option string → list string → Z → Z → t → t)
    (header : option string) (cmds : list string) (cmdlen maxcol : Z) (self : t) : t :=
  match header with
  | Some _ => super_print_topics header cmds cmdlen maxcol self
  | None => self
  end.

(** The class mixed in over a host: only [print_topics] is overridden. *)
Definition host (base : Host) : Host := {|
  call := @call base;
  call_completer := @call_completer base;
  emptyline := @emptyline base;
  AliasMix.print_topics := print_topics (@AliasMix.print_topics base);
  doc_leader := @doc_leader base;
  doc_header := @doc_header base;
  misc_header := @misc_header base;
  undoc_header := @undoc_header base
|}.

End HideNoneDocMix.

(** ** Reading back the alias listing *)

(** The reader the specification speaks of for the round trip, which the
    source does not have: the listing is read line by line, each line as
    [name: target].  Lines end at a line feed, and a line is cut at its
    first colon-and-blank. *)
Module Listing.

Definition LF : ascii := "010"%char.

Fixpoint lines (s : string) : list string :=
  match s with
  | EmptyString => []
  | String c s' =>
      if decide (c = LF) then "" :: lines s'
      else match lines s' with
           | [] => [String c ""]
           | l :: ls => String c l :: ls
           end
  end.

Fixpoint parse_entry (line : string) : option (string * string) :=
  match line with
  | EmptyString => None
  | String c rest =>
      if startswith line ": " then Some ("", str_drop 2 line)
      else '(name, target) ← parse_entry rest; Some (String c name, target)
  end.

Definition parse (s : string) : option (list (string * string)) :=
  mapM parse_entry (lines s).

End Listing.

(** ** Vocabulary of the properties *)

(** [c] occurs in [line] as a contiguous substring. *)
Definition occurs_in (c line : string) : Prop := ∃ pre post, line = pre ++ c ++ post.

(** A candidate the cache filter may offer for [text] and [line] from [opts]. *)
Definition offered (opts : list string) (text line c : string) : Prop :=
  c ∈ opts ∧ (∃ rest, c = text ++ rest) ∧ ¬ occurs_in c line.

(** The entry a cached completion leaves under [key]: the one already
    there, else what [completion_source] gives for [key]. *)
Definition entry_after (self : CacheCompleteMix.t) (key : string) : list string :=
  from_option id (CacheCompleteMix.completion_source self key)
              (CacheCompleteMix.cache self !! key).

(** The names [pre ++ x] of documented attributes with [x] starting with
    [text], as the two comprehensions of [completenames] select them. *)
Definition selected (self : AliasMix.t) (pre text : string) : list string :=
  filter (λ a, startswith a (pre ++ text) && AliasMix.doc_is_not_None self a)
         (AliasMix.get_names self).

(** How often [x] occurs in [l]. *)
Definition occurrences (x : string) (l : list string) : nat :=
  length (filter (λ y, y = x) l).

(** A name made of [identchars] only, and not empty: what [parseline]
    reads as a whole command word. *)
Fixpoint all_identchars (s : string) : bool :=
  match s with
  | EmptyString => true
  | String c s' => AliasMix.in_identchars c && all_identchars s'
  end.

Definition is_ident (s : string) : Prop := s ≠ "" ∧ all_identchars s = true.

(** [x] does not occur in [s]; with a blank for [x], [s] is a single
    word for [split]. *)
Fixpoint no_char (x : ascii) (s : string) : bool :=
  match s with
  | EmptyString => true
  | String c s' => negb (bool_decide (c = x)) && no_char x s'
  end.

(** A host whose handlers leave a trace on [stdout]: the name of the
    function called and its arguments. *)
Definition tracing_host : AliasMix.Host := {|
  AliasMix.call := λ f args self,
    (AliasMix.write self ("<" ++ __name__ f ++ "(" ++ join args ++ ")>"), PNone);
  AliasMix.call_completer := λ f text line b e self, (self, []);
  AliasMix.emptyline := λ self, (self, PNone);
  AliasMix.print_topics := λ header cmds cmdlen maxcol self, self;
  AliasMix.doc_leader := "";
  AliasMix.doc_header := Some "Documented commands (type help <topic>):";
  AliasMix.misc_header := Some "Miscellaneous help topics:";
  AliasMix.undoc_header := Some "Undocumented commands:"
|}.

(** What the listing shows for alias [a]: the name of the function it is
    bound to, less its first three characters. *)
Definition alias_target (self : AliasMix.t) (a : string) : string :=
  from_option (λ f, str_drop 3 (__name__ f)) ""
              (AliasMix.getattr self (AliasMix._wrap_alias a)).

(** A name fit for a line of the listing. *)
Definition listable (s : string) : Prop := no_char Listing.LF s = true.

(** The help lookup as the specification words it: a help provider, else
    the doc string of the command, else the doc string of the alias, else
    the no-help message. *)
Definition do_help_as_specified `{AliasMix.Host} (self : AliasMix.t) (arg : string)
    : AliasMix.t * result pyval :=
  match AliasMix.getattr self ("help_" ++ arg) with
  | Some func => let '(self', _) := AliasMix.call func [] self in (self', Ok PNone)
  | None =>
      let cmd_doc := AliasMix.getattr self ("do_" ++ arg) ≫= __doc__ in
      let alias_doc := AliasMix.getattr self (AliasMix._wrap_alias arg) ≫= __doc__ in
      if truthy cmd_doc then
        (AliasMix.write self (trim_docstring (from_option id "" cmd_doc) ++ "
"), Ok PNone)
      else if truthy alias_doc then
        (AliasMix.write self (trim_docstring (from_option id "" alias_doc) ++ "
"), Ok PNone)
      else
        (AliasMix.write self (AliasMix.nohelp arg ++ "
"), Ok PNone)
  end.

(** A command [arg] exists and has no doc string to show. *)
Definition undocumented_command (self : AliasMix.t) (arg : string) : Prop :=
  ∃ f, AliasMix.getattr self ("do_" ++ arg) = Some f ∧ truthy (__doc__ f) = false.

(** The one situation in which [do_help] does not follow that wording: no
    help provider, a command [arg] without a doc string, and an alias
    [arg] that has one. *)
Definition alias_help_shadowed (self : AliasMix.t) (arg : string) : Prop :=
  AliasMix.getattr self ("help_" ++ arg) = None ∧
  undocumented_command self arg ∧
  truthy (AliasMix.getattr self (AliasMix._wrap_alias arg) ≫= __doc__) = true.

(** A handler that neither reads nor writes [lastcmd]: on an interpreter
    that differs in [lastcmd] only it does the same, and it leaves
    [lastcmd] as it found it. *)
Definition ignores_lastcmd `{AliasMix.Host} (h : func) : Prop :=
  ∀ args self line,
    AliasMix.call h args (AliasMix.set_lastcmd self line) =
      (let '(s, r) := AliasMix.call h args self in (AliasMix.set_lastcmd s line, r)).

(** What may follow the command word on a line: nothing, or a blank and
    the rest. *)
Definition blank_tail (q : string) : Prop := q = "" ∨ ∃ q', q = String " " q'.

(** Every name in [aliases] is bound. *)
Definition aliases_bound (self : AliasMix.t) : Prop :=
  ∀ a, a ∈ AliasMix.aliases self →
       is_Some (AliasMix.getattr self (AliasMix._wrap_alias a)).

(** One line of the listing, for alias [a]. *)
Definition listing_line (self : AliasMix.t) (a : string) : string :=
  a ++ ": " ++ alias_target self a ++ String Listing.LF "".

(** The aliases of an interpreter can be listed and read back: each is
    bound, has no blank and no line feed in its name, and is bound to a
    function whose name has no line feed. *)
Definition listable_aliases (self : AliasMix.t) : Prop :=
  ∀ a, a ∈ AliasMix.aliases self →
    is_Some (AliasMix.getattr self (AliasMix._wrap_alias a)) ∧
    no_char " " a = true ∧ listable a ∧ listable (alias_target self a).

(** Interpreters to try the properties on: a plain [AliasCmdInterpreter]
    as [__init__] with the default arguments leaves it (the class defines
    [do_alias], so the second branch is never taken), and the interpreter
    after the command [alias <arg>]. *)
Definition shell (show_alias : bool) : AliasMix.t :=
  match AliasCmdInterpreter.__init__ AliasCmdInterpreter.methods show_alias true false with
  | Ok self => self
  | Raise _ => AliasMix.__init__ AliasCmdInterpreter.methods show_alias
  end.

Definition after_alias (self : AliasMix.t) (line : string) : AliasMix.t :=
  (AliasCmdInterpreter.do_alias self line false).1.

(** A subclass that defines an alias [q] for [EOF] in its body. *)
Definition shell_with_class_alias : AliasMix.t :=
  AliasMix.__init__
    (AliasCmdInterpreter.subclass {[ "alias_q" := AliasCmdInterpreter.do_EOF_func ]})
    false.

(** The registry of the scenario in the specification: a command [quit]
    with the doc string [exit] and a command [list] without one. *)
Definition quit_list_class : gmap string func :=
  {[ "do_quit" := mkfunc "do_quit" (Some "exit") 10;
     "do_list" := mkfunc "do_list" None 11 ]}.

Definition quit_list_shell : AliasMix.t :=
  AliasMix.__init__ (AliasCmdInterpreter.subclass quit_list_class) false.

(** ** Vocabulary of the further properties *)

(** No character of [s] is a line boundary of [splitlines]. *)
Fixpoint no_linebreak (s : string) : bool :=
  match s with
  | EmptyString => true
  | String c s' => negb (is_linebreak c) && no_linebreak s'
  end.

(** Every character of [s] is white space. *)
Fixpoint all_space (s : string) : bool :=
  match s with
  | EmptyString => true
  | String c s' => isspace c && all_space s'
  end.

(** [self.completion_source = source]: plugging another source in. *)
Definition set_completion_source (self : CacheCompleteMix.t)
    (source : string → list string) : CacheCompleteMix.t :=
  CacheCompleteMix.mk (CacheCompleteMix.cache self) source.

(** The three lists [do_help] hands to [print_topics] when called without
    a topic, as its loop leaves them. *)
Definition help_topics (self : AliasMix.t) : AliasMix.topics :=
  let names := AliasMix.get_names self in
  foldl (AliasMix.classify self)
        (AliasMix.mktopics "" [] [] (AliasMix.collect_help names))
        (merge_sort String.le names).

(** A run of [alias ...] commands, one after the other. *)
Definition alias_session (self : AliasMix.t) (args : list string) : AliasMix.t :=
  foldl after_alias self args.

(** The command [c] has a doc string that [do_help] takes as such. *)
Definition documented (self : AliasMix.t) (c : string) : Prop :=
  truthy (AliasMix.getattr self ("do_" ++ c) ≫= __doc__) = true.

(** * Properties *)

(** ** Strings *)

Section str_facts.
Implicit Types s p q r : string.

Lemma app_cons_str c p s : String c p ++ s = String c (p ++ s).
Proof. reflexivity. Qed.

Lemma app_nil_l_str s : "" ++ s = s.
Proof. reflexivity. Qed.

Lemma app_nil_r_str s : s ++ "" = s.
Proof.
  induction s as [|c s IH]; [done |]. by rewrite app_cons_str, IH.
Qed.

Lemma app_assoc_str p q r : (p ++ q) ++ r = p ++ (q ++ r).
Proof.
  induction p as [|c p IH]; [done |]. by rewrite !app_cons_str, IH.
Qed.

Lemma length_app_str p q :
  String.length (p ++ q) = String.length p + String.length q.
Proof.
  induction p as [|c p IH]; [done |]. rewrite app_cons_str. simpl. by rewrite IH.
Qed.

Lemma startswith_nil s : startswith s "" = true.
Proof. by destruct s. Qed.

Lemma startswith_cons c d s p :
  startswith (String c s) (String d p) =
  if decide (d = c) then startswith s p else false.
Proof.
  unfold startswith. simpl.
  destruct (ascii_dec d c), (decide (d = c)); done.
Qed.

Lemma startswith_app s p : startswith (p ++ s) p = true.
Proof.
  induction p as [|c p IH]; [apply startswith_nil |].
  rewrite app_cons_str, startswith_cons. by rewrite decide_True.
Qed.

Lemma startswith_spec s p : startswith s p = true ↔ ∃ r, s = p ++ r.
Proof.
  split.
  - revert s. induction p as [|c p IH]; intros s H.
    + by exists s.
    + destruct s as [|d s]; [done |].
      rewrite startswith_cons in H. case_decide; [subst | done].
      destruct (IH _ H) as [r ->]. by exists r.
  - intros [r ->]. apply startswith_app.
Qed.

Lemma startswith_app_inv p q r :
  startswith (p ++ q) (p ++ r) = startswith q r.
Proof.
  induction p as [|c p IH]; [done |].
  rewrite !app_cons_str, startswith_cons. by rewrite decide_True.
Qed.

Lemma str_drop_app p s : str_drop (String.length p) (p ++ s) = s.
Proof. induction p as [|c p IH]; [by destruct s | done]. Qed.

Lemma str_in_nil sub : str_in sub "" = startswith "" sub.
Proof. unfold str_in. apply orb_false_r. Qed.

Lemma str_in_cons sub c s :
  str_in sub (String c s) = startswith (String c s) sub || str_in sub s.
Proof. reflexivity. Qed.

Lemma str_in_spec sub s :
  str_in sub s = true ↔ ∃ pre post, s = pre ++ sub ++ post.
Proof.
  split.
  - induction s as [|c s IH]; intros H.
    + rewrite str_in_nil in H.
      apply startswith_spec in H as [r Hr]. by exists "", r.
    + rewrite str_in_cons in H. apply orb_true_iff in H as [H|H].
      * apply startswith_spec in H as [r Hr]. by exists "", r.
      * destruct (IH H) as (pre & post & ->). by exists (String c pre), post.
  - intros (pre & post & ->). induction pre as [|c pre IH].
    + rewrite app_nil_l_str.
      destruct (sub ++ post) as [|c s] eqn:E.
      * rewrite str_in_nil, <- E. apply startswith_app.
      * rewrite str_in_cons, <- E. by rewrite startswith_app.
    + rewrite app_cons_str, str_in_cons. by rewrite IH, orb_true_r.
Qed.
End str_facts.


(** ** The completion cache *)

Section cache_props.
Import CacheCompleteMix.
Implicit Types (self : t) (key text line : string) (opts : list string).

Lemma candidates_spec opts text line c :
  c ∈ candidates opts text line ↔ offered opts text line c.
Proof.
  unfold candidates, offered, occurs_in.
  rewrite list_elem_of_filter, elem_of_elements, elem_of_list_to_set.
  rewrite andb_True, negb_True, !Is_true_true.
  rewrite startswith_spec, str_in_spec. tauto.
Qed.

Lemma candidates_NoDup opts text line : NoDup (candidates opts text line).
Proof. apply NoDup_filter, NoDup_elements. Qed.

Lemma cache_completion_unfold self key text line b e :
  _cache_completion self key text line b e =
    (mk (<[key := entry_after self key]> (cache self)) (completion_source self),
     candidates (entry_after self key) text line).
Proof.
  unfold _cache_completion, entry_after.
  destruct (cache self !! key) as [opts|] eqn:E; simpl; [| done].
  rewrite insert_id by done. by destruct self.
Qed.

Lemma cache_completion_hit self key text line b e opts :
  cache self !! key = Some opts →
  _cache_completion self key text line b e = (self, candidates opts text line).
Proof. intros E. unfold _cache_completion. by rewrite E. Qed.

Lemma entry_after_stored self key text line b e :
  cache (_cache_completion self key text line b e).1 !! key
    = Some (entry_after self key).
Proof. rewrite cache_completion_unfold. simpl. apply lookup_insert_eq. Qed.

Lemma cache_completion_preserves self key text line b e k v :
  cache self !! k = Some v →
  cache (_cache_completion self key text line b e).1 !! k = Some v.
Proof.
  intros Hk. rewrite cache_completion_unfold. simpl.
  destruct (decide (key = k)) as [->|Hne].
  - rewrite lookup_insert_eq. unfold entry_after. by rewrite Hk.
  - by rewrite lookup_insert_ne.
Qed.

Lemma ask_all_preserves qs self k v :
  cache self !! k = Some v → cache (ask_all self qs) !! k = Some v.
Proof.
  revert self. induction qs as [|q qs IH]; intros self Hk; [done |].
  apply IH. by apply cache_completion_preserves.
Qed.

(** C1: every candidate [_cache_completion] returns for key [k] is in the
    set cached for [k], starts with the text and does not occur in the
    line; on a miss that set is first filled from [completion_source k];
    and a second query with the same key, whatever its text and line,
    again draws only from that same cached set. *)
Theorem cache_completion_within_cached_set self k text line b e :
  let r := _cache_completion self k text line b e in
  ∃ opts,
    cache r.1 !! k = Some opts ∧
    (cache self !! k = None → opts = completion_source self k) ∧
    Forall (offered opts text line) r.2 ∧
    ∀ text' line' b' e',
      let r' := _cache_completion r.1 k text' line' b' e' in
      cache r'.1 !! k = Some opts ∧ Forall (offered opts text' line') r'.2.
Proof.
  intros r. exists (entry_after self k).
  assert (Hst : cache r.1 !! k = Some (entry_after self k))
    by apply entry_after_stored.
  split_and!.
  - done.
  - intros Hmiss. unfold entry_after. by rewrite Hmiss.
  - subst r. rewrite cache_completion_unfold. simpl.
    apply Forall_forall. intros c. by rewrite candidates_spec.
  - intros text' line' b' e' r'. subst r'.
    rewrite (cache_completion_hit _ _ _ _ _ _ _ Hst). simpl. split; [done |].
    apply Forall_forall. intros c. by rewrite candidates_spec.
Qed.

(** C8: a populated entry is left as it is by every later call of
    [_cache_completion], for its own key or another; a call with an
    uncached key adds that key's entry and changes nothing else, and a
    call with a cached key changes nothing at all. *)
Theorem cache_entries_are_kept self :
  (∀ qs k v, cache self !! k = Some v → cache (ask_all self qs) !! k = Some v) ∧
  (∀ key text line b e,
     let self' := (_cache_completion self key text line b e).1 in
     completion_source self' = completion_source self ∧
     match cache self !! key with
     | Some _ => self' = self
     | None => cache self' = <[key := completion_source self key]> (cache self)
     end ∧
     ∀ k, k ≠ key → cache self' !! k = cache self !! k).
Proof.
  split.
  - intros qs k v. apply ask_all_preserves.
  - intros key text line b e self'. subst self'.
    split_and!.
    + by rewrite cache_completion_unfold.
    + unfold _cache_completion. by destruct (cache self !! key).
    + intros k Hne. rewrite cache_completion_unfold. simpl.
      by rewrite lookup_insert_ne.
Qed.

End cache_props.

(** ** The attribute table *)

Section attr_props.
Import AliasMix.
Implicit Types (self : t) (n pre text : string).

Lemma dir_Permutation self : dir self ≡ₚ elements (dom (attrs self)).
Proof. apply merge_sort_Permutation. Qed.

Lemma elem_of_dir self n : n ∈ dir self ↔ is_Some (getattr self n).
Proof.
  rewrite dir_Permutation, elem_of_elements. apply elem_of_dom.
Qed.

Lemma NoDup_dir self : NoDup (dir self).
Proof. rewrite dir_Permutation. apply NoDup_elements. Qed.

Lemma dir_sorted self : StronglySorted String.le (dir self).
Proof. apply (StronglySorted_merge_sort _). Qed.

Lemma getattr_inst self n f : inst self !! n = Some f → getattr self n = Some f.
Proof. intros E. unfold getattr, attrs. by apply lookup_union_Some_l. Qed.

Lemma getattr_cls self n : inst self !! n = None → getattr self n = cls self !! n.
Proof. intros E. unfold getattr, attrs. by apply lookup_union_r. Qed.

Lemma getattr_None self n :
  getattr self n = None ↔ inst self !! n = None ∧ cls self !! n = None.
Proof. unfold getattr, attrs. apply lookup_union_None. Qed.

Lemma strip_prefix pre n :
  startswith n pre = true → pre ++ str_drop (String.length pre) n = n.
Proof. intros [r ->]%startswith_spec. by rewrite str_drop_app. Qed.

Lemma startswith_trans n pre text :
  startswith n (pre ++ text) = true → startswith n pre = true.
Proof.
  intros [r ->]%startswith_spec. rewrite app_assoc_str. apply startswith_app.
Qed.

Lemma selected_prefixed self pre text :
  Forall (λ a, startswith a pre = true) (selected self pre text).
Proof.
  apply Forall_forall. intros a [Ha _]%list_elem_of_filter.
  apply andb_True in Ha as [Ha _]. apply Is_true_true in Ha.
  by eapply startswith_trans.
Qed.

Lemma restore_prefix pre (l : list string) :
  Forall (λ a, startswith a pre = true) l →
  (λ x, pre ++ x) <$> (str_drop (String.length pre) <$> l) = l.
Proof.
  induction 1 as [|a l Ha _ IH]; [done |].
  rewrite !fmap_cons, IH. f_equal. by apply strip_prefix.
Qed.

Lemma elem_of_stripped self pre text x :
  x ∈ str_drop (String.length pre) <$> selected self pre text ↔
  startswith x text = true ∧
  ∃ f, getattr self (pre ++ x) = Some f ∧ is_Some (__doc__ f).
Proof.
  rewrite list_elem_of_fmap. unfold selected. split.
  - intros (a & -> & Ha). apply list_elem_of_filter in Ha as [Ha Hin].
    apply andb_True in Ha as [Hp Hd]. apply Is_true_true in Hp.
    pose proof (startswith_trans _ _ _ Hp) as Hpre.
    apply strip_prefix in Hpre. rewrite Hpre.
    rewrite <- Hpre, startswith_app_inv in Hp. split; [done |].
    unfold doc_is_not_None in Hd.
    destruct (getattr self a) as [f|]; [| done].
    exists f. split; [done |]. by apply bool_decide_unpack in Hd.
  - intros (Hp & f & Hf & Hd). exists (pre ++ x). split.
    + by rewrite str_drop_app.
    + apply list_elem_of_filter. split.
      * apply andb_True. split.
        -- apply Is_true_true. by rewrite startswith_app_inv.
        -- unfold doc_is_not_None. rewrite Hf. by apply bool_decide_pack.
      * apply elem_of_dir. by rewrite Hf.
Qed.

Lemma NoDup_stripped self pre text :
  NoDup (str_drop (String.length pre) <$> selected self pre text).
Proof.
  apply NoDup_fmap_2_strong.
  - intros a b Ha Hb E.
    pose proof (selected_prefixed self pre text) as Hall.
    rewrite Forall_forall in Hall.
    rewrite <- (strip_prefix pre a), <- (strip_prefix pre b) by auto.
    by rewrite E.
  - apply NoDup_filter, NoDup_dir.
Qed.

Lemma completenames_split self text :
  completenames self text =
    ((str_drop (String.length "do_") <$> selected self "do_" text) ++
     (if SHOW_ALIAS self
      then str_drop (String.length ALIAS_PREFIX) <$> selected self ALIAS_PREFIX text
      else []))%list.
Proof. reflexivity. Qed.

Lemma occurrences_app x (l k : list string) :
  occurrences x (l ++ k)%list = occurrences x l + occurrences x k.
Proof. unfold occurrences. by rewrite filter_app, length_app. Qed.

Lemma occurrences_not_elem x (l : list string) : x ∉ l → occurrences x l = 0.
Proof.
  unfold occurrences. induction l as [|y l IH]; [done |].
  intros [Hne Hni]%not_elem_of_cons.
  rewrite filter_cons_False by congruence. auto.
Qed.

Lemma occurrences_NoDup x (l : list string) :
  NoDup l → x ∈ l → occurrences x l = 1.
Proof.
  induction 1 as [|y l Hy Hl IH]; [by intros ?%elem_of_nil |].
  intros [->|Hin]%elem_of_cons.
  - change (occurrences y ([y] ++ l)%list = 1). rewrite occurrences_app.
    rewrite (occurrences_not_elem _ l) by done.
    unfold occurrences. by rewrite filter_cons_True.
  - change (occurrences x ([y] ++ l)%list = 1). rewrite occurrences_app, IH by done.
    rewrite occurrences_not_elem; [done |].
    intros ->%list_elem_of_singleton. done.
Qed.

Lemma elem_of_get_aliases self a :
  a ∈ get_aliases self ↔ is_Some (getattr self (_wrap_alias a)).
Proof.
  unfold get_aliases. rewrite elem_of_list_to_set, list_elem_of_fmap. split.
  - intros (n & -> & [Hp Hin]%list_elem_of_filter).
    apply Is_true_true in Hp.
    change 6 with (String.length ALIAS_PREFIX). unfold _wrap_alias.
    rewrite strip_prefix by done. by apply elem_of_dir.
  - intros Hs. exists (_wrap_alias a). split.
    + symmetry. apply (str_drop_app ALIAS_PREFIX).
    + apply list_elem_of_filter. split; [| by apply elem_of_dir].
      apply Is_true_true. apply startswith_app.
Qed.

End attr_props.

(** ** Name completion *)

Section completenames_props.
Import AliasMix.
Implicit Types (self : t) (p : string).

(** C3, as the code has it: a documented command whose name starts with
    [p] is offered once among the commands; with [SHOW_ALIAS] off that is
    all [completenames p] holds, so it is there exactly once and nothing
    comes from an alias; with [SHOW_ALIAS] on every documented alias
    starting with [p] is there as well, and a name that is both a
    documented command and a documented alias is there twice. *)
Theorem completenames_contents self p :
  (∀ c f, getattr self ("do_" ++ c) = Some f → is_Some (__doc__ f) →
          startswith c p = true →
          occurrences c (completenames self p) =
            if SHOW_ALIAS self && doc_is_not_None self (_wrap_alias c) then 2 else 1) ∧
  (SHOW_ALIAS self = false →
     ∀ x, x ∈ completenames self p →
          startswith x p = true ∧
          ∃ f, getattr self ("do_" ++ x) = Some f ∧ is_Some (__doc__ f)) ∧
  (SHOW_ALIAS self = true →
     ∀ a g, getattr self (_wrap_alias a) = Some g → is_Some (__doc__ g) →
            startswith a p = true → a ∈ completenames self p).
Proof.
  rewrite completenames_split. split_and!.
  - intros c f Hf Hd Hp. rewrite occurrences_app.
    rewrite occurrences_NoDup; [| apply NoDup_stripped |]; last first.
    { apply elem_of_stripped. eauto. }
    destruct (SHOW_ALIAS self); cbn [andb].
    + unfold doc_is_not_None.
      destruct (getattr self (_wrap_alias c)) as [g|] eqn:Hg.
      * case_bool_decide as Hdg.
        -- rewrite occurrences_NoDup; [done | apply NoDup_stripped |].
           apply elem_of_stripped. eauto.
        -- rewrite occurrences_not_elem; [done |].
           intros (_ & g' & Hg' & Hd')%elem_of_stripped.
           unfold _wrap_alias in Hg. congruence.
      * rewrite occurrences_not_elem; [done |].
        intros (_ & g' & Hg' & Hd')%elem_of_stripped.
        unfold _wrap_alias in Hg. congruence.
    + by rewrite occurrences_not_elem by apply not_elem_of_nil.
  - intros -> x. rewrite app_nil_r. by intros ?%elem_of_stripped.
  - intros -> a g Hg Hd Hp. apply elem_of_app. right.
    apply elem_of_stripped. eauto.
Qed.

(** C3 as worded fails where an alias carries the name of a command:
    after [alias help alias], with [SHOW_ALIAS] on, the documented command
    [help] is offered twice for the prefix [he]. *)
Lemma completenames_offers_shadowed_name_twice :
  let self := after_alias (shell true) "help alias" in
  getattr self "do_help" = Some AliasCmdInterpreter.do_help_func ∧
  truthy (__doc__ AliasCmdInterpreter.do_help_func) = true ∧
  startswith "help" "he" = true ∧
  completenames self "he" = ["help"; "help"] ∧
  occurrences "help" (completenames self "he") ≠ 1.
Proof. vm_compute. split_and!; done. Qed.

(** C10: [completenames] is the command candidates followed by the alias
    candidates; each part keeps the order of the attribute listing
    [get_names], which is sorted, and the alias part is empty unless
    [SHOW_ALIAS] is on. *)
Theorem completenames_commands_then_aliases self p :
  ∃ cmds als : list string,
    completenames self p = (cmds ++ als)%list ∧
    ((λ c, "do_" ++ c) <$> cmds) `sublist_of` get_names self ∧
    ((λ a, ALIAS_PREFIX ++ a) <$> als) `sublist_of` get_names self ∧
    StronglySorted String.le (get_names self) ∧
    (∀ c, c ∈ cmds ↔
          startswith c p = true ∧
          ∃ f, getattr self ("do_" ++ c) = Some f ∧ is_Some (__doc__ f)) ∧
    (∀ a, a ∈ als ↔
          SHOW_ALIAS self = true ∧ startswith a p = true ∧
          ∃ g, getattr self (_wrap_alias a) = Some g ∧ is_Some (__doc__ g)).
Proof.
  eexists _, _. split; [apply completenames_split |]. split_and!.
  - rewrite restore_prefix by apply selected_prefixed. apply sublist_filter.
  - destruct (SHOW_ALIAS self); [| apply sublist_nil_l].
    rewrite restore_prefix by apply selected_prefixed. apply sublist_filter.
  - apply dir_sorted.
  - intros c. apply elem_of_stripped.
  - intros a. destruct (SHOW_ALIAS self).
    + rewrite elem_of_stripped. unfold _wrap_alias. tauto.
    + rewrite elem_of_nil. split; [done | by intros [? _]].
Qed.

End completenames_props.

(** ** Enumerating the matches *)

Section complete_props.
Import AliasMix.
Context `{Host}.
Implicit Types (self : t) (rl : readline) (text : string) (state : Z).

Lemma list_getitem_nonneg {A} (l : list A) (i : Z) :
  (0 ≤ i)%Z → list_getitem l i = l !! Z.to_nat i.
Proof.
  intros Hi. unfold list_getitem.
  destruct (Z.leb_spec 0 i) as [_|Hlt]; [done | lia].
Qed.

Lemma complete_replay rl self text state l :
  completion_matches self = Some l → (0 < state)%Z →
  complete rl self text state = (self, Ok (l !! Z.to_nat state)).
Proof.
  intros Hl Hs. unfold complete.
  destruct (decide (state = 0%Z)) as [->|_]; [lia |].
  unfold lookup_match. rewrite Hl, list_getitem_nonneg by lia. done.
Qed.

(** A call with state 0 stores the list the selected completion function
    returns, on the interpreter that function leaves, and returns the
    first element of the list. *)
Lemma complete_first_stores rl self text c self1 l :
  let line := lstrip (get_line_buffer rl) in
  let stripped :=
    (Z.of_nat (String.length (get_line_buffer rl)) - Z.of_nat (String.length line))%Z in
  select_compfunc self line (get_begidx rl - stripped) = Ok c →
  run_compfunc c self text line (get_begidx rl - stripped) (get_endidx rl - stripped)
    = (self1, l) →
  complete rl self text 0 = (set_completion_matches self1 l, Ok (l !! 0%nat)).
Proof.
  intros line stripped Hsel Hrun. unfold complete. rewrite decide_True by done.
  cbv zeta. fold line. fold stripped. rewrite Hsel, Hrun.
  unfold lookup_match. cbn [completion_matches set_completion_matches].
  by rewrite list_getitem_nonneg.
Qed.

(** C2: let the call with state 0 have selected the completion function
    [c], and let [c] have returned the list [l].  That call stores [l] and
    returns its first element.  A call with a state [s > 0] after it leaves
    the interpreter as it is, whatever the line buffer and the text now are
    and whatever the completion functions would do: nothing is recomputed.
    It returns the element at index [s] of [l], and [None] when [s] is past
    the end of [l]; no exception comes out. *)
Theorem complete_replays_stored_matches rl0 self0 text0 c self1 l rl text s :
  let line := lstrip (get_line_buffer rl0) in
  let stripped :=
    (Z.of_nat (String.length (get_line_buffer rl0)) - Z.of_nat (String.length line))%Z in
  select_compfunc self0 line (get_begidx rl0 - stripped) = Ok c →
  run_compfunc c self0 text0 line (get_begidx rl0 - stripped) (get_endidx rl0 - stripped)
    = (self1, l) →
  (0 < s)%Z →
  let self := set_completion_matches self1 l in
  complete rl0 self0 text0 0 = (self, Ok (l !! 0%nat)) ∧
  complete rl self text s = (self, Ok (l !! Z.to_nat s)) ∧
  ((length l ≤ Z.to_nat s)%nat → complete rl self text s = (self, Ok None)).
Proof.
  intros line stripped Hsel Hrun Hs self.
  assert (Hreplay : complete rl self text s = (self, Ok (l !! Z.to_nat s))).
  { by apply complete_replay. }
  split_and!.
  - by apply (complete_first_stores _ _ _ c).
  - done.
  - intros Hlen. by rewrite Hreplay, (lookup_ge_None_2 l).
Qed.

End complete_props.

Lemma complete_replays_stored_matches_witness :
  let self := AliasMix.set_completion_matches (shell false) ["alias"; "help"] in
  AliasMix.complete (H := tracing_host) (AliasMix.mkrl " " 1 1) (shell false) "" 0
    = (self, Ok (["alias"; "help"] !! 0%nat)) ∧
  AliasMix.complete (H := tracing_host) (AliasMix.mkrl " alias he" 7 9) self "he" 1
    = (self, Ok (["alias"; "help"] !! Z.to_nat 1)) ∧
  ((length ["alias"; "help"] ≤ Z.to_nat 1)%nat →
   AliasMix.complete (H := tracing_host) (AliasMix.mkrl " alias he" 7 9) self "he" 1
     = (self, Ok None)).
Proof.
  apply (complete_replays_stored_matches (H := tracing_host)
           (AliasMix.mkrl " " 1 1) (shell false) "" AliasMix.Completenames
           (shell false) ["alias"; "help"] (AliasMix.mkrl " alias he" 7 9) "he" 1).
  - reflexivity.
  - vm_compute. reflexivity.
  - lia.
Defined.

(** ** The alias command *)

Section alias_props.
Import AliasMix AliasCmdInterpreter.
Implicit Types (self : t) (arg name : string) (suppress : bool).

Lemma split_word sep (w : string) : no_char sep w = true → split sep w = [w].
Proof.
  induction w as [|c w IH]; [done |]. cbn [no_char split].
  intros [Hc Hw]%andb_prop. apply negb_true_iff, bool_decide_eq_false in Hc.
  rewrite decide_False by done. by rewrite IH.
Qed.

Lemma split_word_app sep (w rest : string) :
  no_char sep w = true →
  split sep (w ++ String sep rest) = w :: split sep rest.
Proof.
  induction w as [|c w IH].
  - intros _. rewrite app_nil_l_str. cbn [split]. by rewrite decide_True.
  - cbn [no_char]. intros [Hc Hw]%andb_prop.
    apply negb_true_iff, bool_decide_eq_false in Hc.
    rewrite app_cons_str. cbn [split]. rewrite decide_False by done.
    by rewrite IH.
Qed.

Lemma do_alias_bind self arg suppress c :
  arg ≠ "" → resolve_target self (split " " arg) = Some c →
  do_alias self arg suppress =
    (let self' := setattr self (_wrap_alias (hd "" (split " " arg))) c in
     set_aliases self' (get_aliases self'), Ok PNone).
Proof.
  intros Harg Hc. unfold do_alias. rewrite decide_True by done.
  cbv zeta. by rewrite Hc.
Qed.

Lemma do_alias_unbind self arg suppress :
  arg ≠ "" → resolve_target self (split " " arg) = None →
  do_alias self arg suppress =
    (match delattr self (_wrap_alias (hd "" (split " " arg))) with
     | Some self' => set_aliases self' (get_aliases self')
     | None => self
     end, Ok PNone).
Proof.
  intros Harg Hc. unfold do_alias. rewrite decide_True by done.
  cbv zeta. rewrite Hc. by destruct (delattr _ _).
Qed.

(** Alias creation and deletion through [do_alias] leave [aliases] equal
    to [get_aliases()] whenever they change a binding. *)
Lemma do_alias_keeps_aliases_current self arg suppress :
  arg ≠ "" →
  let self' := (do_alias self arg suppress).1 in
  self' = self ∨ aliases self' = get_aliases self'.
Proof.
  intros Harg. cbv zeta.
  destruct (resolve_target self (split " " arg)) as [c|] eqn:Hc.
  - rewrite (do_alias_bind _ _ _ c) by done. by right.
  - rewrite do_alias_unbind by done.
    destruct (delattr _ _); [by right | by left].
Qed.

(** The default alias is bound without recomputing [aliases]: on a class
    that defines [do_alias] and no alias [a], the interpreter comes out of
    [__init__] with the alias [a] bound and missing from [aliases]. *)
Lemma default_alias_seeding_is_stale class show force f :
  class !! "do_alias" = Some f → class !! "alias_a" = None →
  ∃ self, AliasCmdInterpreter.__init__ class show true force = Ok self ∧
          getattr self "alias_a" = Some f ∧
          "a" ∈ get_aliases self ∧ "a" ∉ aliases self.
Proof.
  intros Hf Ha.
  set (self0 := AliasMix.__init__ class show).
  assert (Hg0 : ∀ n, getattr self0 n = class !! n).
  { intros n. unfold getattr, attrs. simpl. by rewrite (left_id_L ∅ (∪)). }
  assert (Hno : "a" ∉ aliases self0).
  { change (aliases self0) with (get_aliases (mk class ∅ ∅ show None "" "")).
    rewrite elem_of_get_aliases. unfold getattr, attrs. simpl.
    rewrite (left_id_L ∅ (∪)). change (_wrap_alias "a") with "alias_a".
    rewrite Ha. by intros [? ?]. }
  exists (setattr self0 "alias_a" f).
  assert (Hget : getattr (setattr self0 "alias_a" f) "alias_a" = Some f).
  { apply getattr_inst. simpl. apply lookup_insert_eq. }
  split_and!.
  - unfold AliasCmdInterpreter.__init__, __default_alias. fold self0.
    unfold hasattr. change (_wrap_alias "a") with "alias_a".
    rewrite !Hg0, Ha, Hf. rewrite bool_decide_eq_false_2; [done |].
    by intros [? ?].
  - done.
  - apply elem_of_get_aliases. change (_wrap_alias "a") with "alias_a".
    by rewrite Hget.
  - done.
Qed.

(** C5, default seeding: constructing the interpreter with the default
    arguments binds the alias [a] to [do_alias], so [get_aliases()] is
    [{a}], while the [aliases] attribute is still the empty set taken
    before the binding, and the alias listing is empty. *)
Theorem default_alias_left_out_of_aliases :
  AliasCmdInterpreter.__init__ methods false true false = Ok (shell false) ∧
  getattr (shell false) "alias_a" = Some do_alias_func ∧
  get_aliases (shell false) = {[ "a" ]} ∧
  aliases (shell false) = ∅ ∧
  do_alias (shell false) "" true = (shell false, Ok (PStr "")).
Proof. vm_compute. done. Qed.

End alias_props.

(** ** Deleting an alias *)

Section alias_deletion.
Import AliasMix AliasCmdInterpreter.
Implicit Types (self : t) (arg name : string) (suppress : bool).

Lemma delattr_Some self name self' :
  delattr self name = Some self' ↔
  is_Some (inst self !! name) ∧ self' = set_inst self (delete name (inst self)).
Proof.
  unfold delattr. destruct (inst self !! name) as [f|].
  - split; [intros [= <-]; eauto | intros [_ ->]; done].
  - split; [done | by intros [[? ?] _]].
Qed.

Lemma delattr_None self name : delattr self name = None ↔ inst self !! name = None.
Proof. unfold delattr. by destruct (inst self !! name). Qed.

(** Deleting an instance entry makes no missing attribute appear. *)
Lemma getattr_None_after_delete self name n :
  getattr self n = None →
  getattr (set_inst self (delete name (inst self))) n = None.
Proof.
  rewrite !getattr_None. simpl. intros [Hi Hc]. split; [| done].
  rewrite lookup_delete. by case_decide.
Qed.

Lemma resolve_target_after_delete self name args :
  resolve_target self args = None →
  resolve_target (set_inst self (delete name (inst self))) args = None.
Proof.
  unfold resolve_target. destruct (args !! 1) as [target|]; [| done].
  destruct (getattr self ("do_" ++ target)) eqn:Hdo; [done |].
  intros Hal. by rewrite !getattr_None_after_delete.
Qed.

(** X28: with no target, or one that is neither a command nor an alias,
    [do_alias] is a deletion request.  It never raises, and a second call
    right after the first changes nothing.  Where no function is bound on
    the instance under the name the first call changes nothing either;
    where one is, the first call removes that binding and recomputes
    [aliases], and the alias is gone provided the class does not define one
    of that name itself. *)
Theorem alias_deletion_idempotent self arg suppress :
  arg ≠ "" → resolve_target self (split " " arg) = None →
  let A := hd "" (split " " arg) in
  let r1 := do_alias self arg suppress in
  r1.2 = Ok PNone ∧
  do_alias r1.1 arg suppress = (r1.1, Ok PNone) ∧
  (inst self !! _wrap_alias A = None → r1.1 = self) ∧
  (is_Some (inst self !! _wrap_alias A) →
     inst r1.1 = delete (_wrap_alias A) (inst self) ∧
     cls r1.1 = cls self ∧
     aliases r1.1 = get_aliases r1.1 ∧
     (cls self !! _wrap_alias A = None →
        getattr r1.1 (_wrap_alias A) = None ∧ A ∉ aliases r1.1)).
Proof.
  intros Harg Hnone A r1. subst r1. rewrite do_alias_unbind by done. fold A.
  destruct (delattr self (_wrap_alias A)) as [self'|] eqn:Hdel; cbn [fst snd].
  - apply delattr_Some in Hdel as [Hsome ->].
    set (self' := set_inst self (delete (_wrap_alias A) (inst self))).
    set (self'' := set_aliases self' (get_aliases self')).
    assert (Hgone : inst self'' !! _wrap_alias A = None) by apply lookup_delete_eq.
    split_and!.
    + done.
    + rewrite do_alias_unbind; [| done |]; last first.
      { by apply (resolve_target_after_delete self). }
      fold A. apply delattr_None in Hgone. by rewrite Hgone.
    + intros Hn. rewrite Hn in Hsome. by destruct Hsome.
    + intros _. split_and!; [done | done | done |].
      intros Hcls.
      assert (Hg : getattr self'' (_wrap_alias A) = None).
      { apply getattr_None. by split. }
      split; [done |].
      change (aliases self'') with (get_aliases self'').
      rewrite elem_of_get_aliases, Hg. by intros [? ?].
  - apply delattr_None in Hdel. split_and!.
    + done.
    + rewrite do_alias_unbind by done. fold A.
      apply delattr_None in Hdel. by rewrite Hdel.
    + done.
    + intros Hsome. rewrite Hdel in Hsome. by destruct Hsome.
Qed.

(** C6: an alias that exists is not removed when the class defines it.
    On an interpreter whose class body binds the alias [q], the command
    [alias q] is a deletion request, since no target is given.  The
    instance has no entry of that name, so [delattr] raises, [do_alias]
    swallows the exception, and the call returns with the interpreter as it
    was: the alias [q] is still bound, still in [aliases] and still found by
    [get_aliases()].  The first call has removed nothing, where the claim,
    and the doc string of [do_alias], say it clears the alias. *)
Theorem class_alias_survives_deletion :
  let self := shell_with_class_alias in
  getattr self "alias_q" = Some do_EOF_func ∧
  aliases self = {[ "q" ]} ∧
  resolve_target self (split " " "q") = None ∧
  delattr self "alias_q" = None ∧
  do_alias self "q" false = (self, Ok PNone) ∧
  getattr (do_alias self "q" false).1 "alias_q" = Some do_EOF_func ∧
  get_aliases (do_alias self "q" false).1 = {[ "q" ]}.
Proof. vm_compute. split_and!; done. Qed.

End alias_deletion.

Lemma alias_deletion_idempotent_witness :
  let self := shell true in
  let r1 := AliasCmdInterpreter.do_alias self "a" false in
  r1.2 = Ok PNone ∧
  AliasCmdInterpreter.do_alias r1.1 "a" false = (r1.1, Ok PNone) ∧
  (AliasMix.inst self !! "alias_a" = None → r1.1 = self) ∧
  (is_Some (AliasMix.inst self !! "alias_a") →
     AliasMix.inst r1.1 = delete "alias_a" (AliasMix.inst self) ∧
     AliasMix.cls r1.1 = AliasMix.cls self ∧
     AliasMix.aliases r1.1 = AliasMix.get_aliases r1.1 ∧
     (AliasMix.cls self !! "alias_a" = None →
        AliasMix.getattr r1.1 "alias_a" = None ∧ "a" ∉ AliasMix.aliases r1.1)).
Proof.
  apply (alias_deletion_idempotent (shell true) "a" false).
  - done.
  - vm_compute. reflexivity.
Defined.

(** ** Help on a topic *)

Section help_props.
Import AliasMix.
Context `{Host}.
Implicit Types (self : t) (arg : string).

Lemma do_help_topic self arg :
  arg ≠ "" →
  do_help self arg =
    match getattr self ("help_" ++ arg) with
    | Some func => ((call func [] self).1, Ok PNone)
    | None =>
        match getattr self ("do_" ++ arg) with
        | Some f => (help_of self (__doc__ f) arg, Ok PNone)
        | None =>
            match getattr self (_wrap_alias arg) with
            | Some g => (help_of self (__doc__ g) arg, Ok PNone)
            | None => (help_of self None arg, Ok PNone)
            end
        end
    end.
Proof.
  intros Harg. unfold do_help. rewrite decide_True by done.
  destruct (getattr self ("help_" ++ arg)) as [func|]; [by destruct (call _ _ _) |].
  done.
Qed.

Lemma do_help_returns_None self arg : arg ≠ "" → (do_help self arg).2 = Ok PNone.
Proof.
  intros Harg. rewrite do_help_topic by done.
  by repeat case_match.
Qed.

(** C9, as the code has it: for a topic [arg], [do_help] returns [None]
    without raising, and does what the wording says (a help provider is
    called, else the doc string of the command is written, else that of the
    alias, else the no-help message) except when a command [arg] exists
    without a doc string: then the alias is not consulted, and the
    no-help message is written even if an alias [arg] has a doc string. *)
Theorem do_help_lookup_order self arg :
  arg ≠ "" →
  (do_help self arg).2 = Ok PNone ∧
  (¬ alias_help_shadowed self arg → do_help self arg = do_help_as_specified self arg) ∧
  (getattr self ("help_" ++ arg) = None → undocumented_command self arg →
   do_help self arg = (write self (nohelp arg ++ "
"), Ok PNone)).
Proof.
  intros Harg. split; [by apply do_help_returns_None |].
  rewrite do_help_topic by done. unfold do_help_as_specified, alias_help_shadowed,
    undocumented_command, help_of.
  destruct (getattr self ("help_" ++ arg)) as [func|].
  { split; [| done]. intros _. by destruct (call _ _ _). }
  destruct (getattr self ("do_" ++ arg)) as [f|]; cbn [mbind option_bind].
  - destruct (truthy (__doc__ f)) eqn:Hdoc.
    + split; [done |]. intros _ (f' & [= <-] & Hf'). congruence.
    + split; [| done]. intros Hns.
      destruct (truthy (getattr self (_wrap_alias arg) ≫= __doc__)) eqn:Hal; [| done].
      destruct Hns. eauto.
  - split; [| by intros _ (f' & [=] & _)]. intros _.
    destruct (getattr self (_wrap_alias arg)) as [g|]; cbn [mbind option_bind truthy];
      [by destruct (truthy (__doc__ g)) | done].
Qed.

End help_props.

(** C9 as worded fails where a command without a doc string has an alias
    of its name: after [alias EOF alias], [help EOF] finds [do_EOF], which
    has no doc string, and writes the no-help message; the doc string of
    the alias target is never looked at. *)
Lemma help_ignores_alias_of_undocumented_command :
  let self := after_alias (shell false) "EOF alias" in
  AliasMix.getattr self "help_EOF" = None ∧
  AliasMix.getattr self "do_EOF" = Some AliasCmdInterpreter.do_EOF_func ∧
  AliasMix.getattr self "alias_EOF" = Some AliasCmdInterpreter.do_alias_func ∧
  AliasMix.stdout (AliasMix.do_help (H := tracing_host) self "EOF").1 = "*** No help on EOF
" ∧
  AliasMix.do_help (H := tracing_host) self "EOF"
    ≠ do_help_as_specified (H := tracing_host) self "EOF".
Proof. vm_compute. split_and!; done. Qed.

Lemma do_help_lookup_order_witness :
  (AliasMix.do_help (H := tracing_host) (shell false) "alias").2 = Ok PNone ∧
  (¬ alias_help_shadowed (shell false) "alias" →
   AliasMix.do_help (H := tracing_host) (shell false) "alias"
     = do_help_as_specified (H := tracing_host) (shell false) "alias") ∧
  (AliasMix.getattr (shell false) "help_alias" = None →
   undocumented_command (shell false) "alias" →
   AliasMix.do_help (H := tracing_host) (shell false) "alias"
     = (AliasMix.write (shell false) (AliasMix.nohelp "alias" ++ "
"), Ok PNone)).
Proof. apply (do_help_lookup_order (H := tracing_host) (shell false) "alias"). done. Defined.

(** ** Reading a line *)

Section parse_props.
Import AliasMix.
Implicit Types (self : t) (A q S : string) (c : ascii).

Lemma identchar_facts c :
  in_identchars c = true →
  isspace c = false ∧ c ≠ "?"%char ∧ c ≠ "!"%char ∧ c ≠ " "%char.
Proof.
  destruct c as [[] [] [] [] [] [] [] []]; intros Hc; vm_compute in Hc;
    try discriminate Hc; (split; [reflexivity |]); split_and!; discriminate.
Qed.

Lemma rstrip_cons_nonspace c s :
  isspace c = false → rstrip (String c s) = String c (rstrip s).
Proof. intros Hc. cbn [rstrip]. rewrite Hc. by destruct (rstrip s). Qed.

Lemma rstrip_idemp s : rstrip (rstrip s) = rstrip s.
Proof.
  induction s as [|c s IH]; [done |]. cbn [rstrip].
  destruct (rstrip s) as [|d r] eqn:E.
  - destruct (isspace c) eqn:Hc; [done |]. cbn [rstrip]. by rewrite Hc.
  - cbn [rstrip]. cbn [rstrip] in IH. by rewrite IH.
Qed.

Lemma rstrip_ident_app A q :
  all_identchars A = true → rstrip (A ++ q) = A ++ rstrip q.
Proof.
  induction A as [|c A IH]; [done |]. cbn [all_identchars].
  intros [Hc HA]%andb_prop. apply identchar_facts in Hc as (Hc & _).
  rewrite !app_cons_str, rstrip_cons_nonspace by done. by rewrite IH.
Qed.

Lemma rstrip_blank_tail q : blank_tail q → blank_tail (rstrip q).
Proof.
  intros [->|[q' ->]]; [by left |]. cbn [rstrip].
  destruct (rstrip q'); [by left | right; eauto].
Qed.

Lemma strip_rstrip s : strip (rstrip s) = strip s.
Proof. unfold strip. by rewrite rstrip_idemp. Qed.

Lemma strip_blank_cons S : strip (String " " S) = strip S.
Proof. unfold strip. cbn [rstrip]. by destruct (rstrip S). Qed.

Lemma strip_ident_app A q :
  is_ident A → strip (A ++ q) = A ++ rstrip q.
Proof.
  intros [Hne HA]. unfold strip. rewrite rstrip_ident_app by done.
  destruct A as [|c A]; [done |]. cbn [all_identchars] in HA.
  apply andb_prop in HA as [Hc _]. apply identchar_facts in Hc as (Hc & _).
  rewrite app_cons_str. cbn [lstrip]. by rewrite Hc.
Qed.

Lemma span_identchars_app A q :
  all_identchars A = true → blank_tail q → span_identchars (A ++ q) = (A, q).
Proof.
  intros HA Hq. induction A as [|c A IH].
  - rewrite app_nil_l_str. by destruct Hq as [->|[q' ->]].
  - cbn [all_identchars] in HA. apply andb_prop in HA as [Hc HA].
    rewrite app_cons_str. cbn [span_identchars]. by rewrite Hc, IH.
Qed.

(** A line that starts with an identifier, followed by nothing or by a
    blank, is read as that command and the stripped rest. *)
Lemma parseline_ident self A q :
  is_ident A → blank_tail q →
  parseline self (A ++ q) = (Some (A, strip q), A ++ rstrip q).
Proof.
  intros HA Hq. unfold parseline. rewrite strip_ident_app by done.
  pose proof HA as [Hne Hall]. destruct A as [|c A]; [done |].
  pose proof Hall as Hall'. cbn [all_identchars] in Hall'.
  apply andb_prop in Hall' as [Hc _]. apply identchar_facts in Hc as (_ & H1 & H2 & _).
  rewrite app_cons_str, !decide_False by done. rewrite <- app_cons_str.
  rewrite span_identchars_app by auto using rstrip_blank_tail.
  by rewrite strip_rstrip.
Qed.

Lemma parseline_ident_again self A q :
  is_ident A → blank_tail q →
  parseline self (A ++ rstrip q) = (Some (A, strip q), A ++ rstrip q).
Proof.
  intros HA Hq. rewrite parseline_ident by auto using rstrip_blank_tail.
  by rewrite strip_rstrip, rstrip_idemp.
Qed.

Lemma ident_app_nonempty A q : is_ident A → A ++ q ≠ "".
Proof. intros [Hne _]. by destruct A. Qed.

Lemma filter_pair_single (a b : string) (l : list string) :
  NoDup l → b ∈ l → a ∉ l → filter (λ n, n = a ∨ n = b) l = [b].
Proof.
  induction 1 as [|x l Hx Hl IH]; [by intros ?%elem_of_nil |].
  intros Hb [Hax Hal]%not_elem_of_cons.
  apply elem_of_cons in Hb as [->|Hb].
  - rewrite filter_cons_True by auto. f_equal.
    clear IH. induction l as [|y l IH]; [done |].
    apply not_elem_of_cons in Hx as [Hxy Hxl].
    apply not_elem_of_cons in Hal as [Hay Hal].
    apply NoDup_cons in Hl as [_ Hl].
    rewrite filter_cons_False; [auto |]. intros [->| ->]; done.
  - rewrite filter_cons_False; [auto |].
    intros [->| ->]; [done |]. done.
Qed.

End parse_props.

(** ** Dispatching through an alias *)

Section dispatch_props.
Import AliasMix AliasCmdInterpreter.
Context `{Host}.
Implicit Types (self : t) (A T q S : string) (h : func).

(** [default] on a line whose command word is an alias and not a command
    calls the function the alias is bound to. *)
Lemma default_calls_alias self A q h :
  is_ident A → blank_tail q →
  getattr self ("do_" ++ A) = None → getattr self (_wrap_alias A) = Some h →
  default self (A ++ rstrip q) = (let '(s, r) := call h [strip q] self in (s, Ok r)).
Proof.
  intros HA Hq Hdo Hal. unfold default. rewrite parseline_ident_again by done.
  rewrite (filter_pair_single _ (_wrap_alias A)).
  - cbn [omap list_omap]. by rewrite Hal.
  - apply NoDup_dir.
  - apply elem_of_dir. by rewrite Hal.
  - rewrite elem_of_dir, Hdo. by intros [? ?].
Qed.

(** Recording the line changes [lastcmd] and nothing else: every
    attribute lookup gives what it gave. *)
Lemma remember_eq self line :
  remember self line = set_lastcmd self (if decide (line = "EOF") then "" else line).
Proof. unfold remember. by case_decide. Qed.

Lemma getattr_remember self line n : getattr (remember self line) n = getattr self n.
Proof. by rewrite remember_eq. Qed.

(** [onecmd] on a line that starts with an identifier: the stripped line
    is recorded, then the command of that name is called, or [default]. *)
Lemma onecmd_ident self A q :
  is_ident A → blank_tail q →
  onecmd self (A ++ q) =
    (let self1 := remember self (strip (A ++ q)) in
     match getattr self ("do_" ++ A) with
     | Some func => let '(s, r) := call func [strip q] self1 in (s, Ok r)
     | None => default self1 (A ++ rstrip q)
     end).
Proof.
  intros HA Hq. unfold onecmd. rewrite parseline_ident, strip_ident_app by done.
  pose proof (ident_app_nonempty A (rstrip q) HA) as Hne.
  destruct (A ++ rstrip q) as [|c l] eqn:E; [done |]. rewrite <- E.
  destruct HA as [HA _]. cbv zeta. by rewrite decide_False, getattr_remember by done.
Qed.

Lemma onecmd_calls_command self T q h :
  is_ident T → blank_tail q → getattr self ("do_" ++ T) = Some h →
  onecmd self (T ++ q) =
    (let '(s, r) := call h [strip q] (remember self (strip (T ++ q))) in (s, Ok r)).
Proof. intros HT Hq Hdo. by rewrite onecmd_ident, Hdo by done. Qed.

Lemma onecmd_calls_alias self A q h :
  is_ident A → blank_tail q →
  getattr self ("do_" ++ A) = None → getattr self (_wrap_alias A) = Some h →
  onecmd self (A ++ q) =
    (let '(s, r) := call h [strip q] (remember self (strip (A ++ q))) in (s, Ok r)).
Proof.
  intros HA Hq Hdo Hal. rewrite onecmd_ident, Hdo by done. cbv zeta.
  apply default_calls_alias; by rewrite ?getattr_remember.
Qed.

(** A handler that ignores [lastcmd], called after the line was recorded,
    does what it does when called directly, with the line recorded on top. *)
Lemma call_after_remember h args self line :
  ignores_lastcmd h →
  call h args (remember self line) =
    (let '(s, r) := call h args self in (remember s line, r)).
Proof.
  intros Hh. rewrite remember_eq, Hh. destruct (call h args self) as [s r].
  by rewrite remember_eq.
Qed.

(** The alias command binds [alias_<A>] to the very function [do_<T>]
    holds, and touches no other attribute. *)
Lemma do_alias_binds_target self A T h suppress :
  no_char " " A = true → no_char " " T = true →
  getattr self ("do_" ++ T) = Some h →
  let self' := (do_alias self (A ++ " " ++ T) suppress).1 in
  getattr self' (_wrap_alias A) = Some h ∧
  ∀ n, n ≠ _wrap_alias A → getattr self' n = getattr self n.
Proof.
  intros HA HT Hh. cbv zeta.
  assert (Hsplit : split " " (A ++ " " ++ T) = [A; T]).
  { change (" " ++ T) with (String " " T).
    rewrite split_word_app by done. by rewrite split_word. }
  rewrite (do_alias_bind _ _ _ h).
  - rewrite Hsplit. cbn [hd fst]. split.
    + apply getattr_inst. simpl. apply lookup_insert_eq.
    + intros n Hn. unfold getattr, attrs. simpl.
      rewrite !lookup_union, lookup_insert_ne by done. done.
  - by destruct A.
  - rewrite Hsplit. unfold resolve_target. cbn [lookup list_lookup]. by rewrite Hh.
Qed.

(** C4, as the code has it: where alias [A] and command [T] hold the
    same function, [A] and [T] are identifiers, and no command is called
    [A], the lines [A S] and [T S] call that same function with the same
    argument, the stripped [S].  The interpreter the function is handed
    differs in [lastcmd] only, in which [onecmd] has recorded the line as
    typed.  For a function that neither reads nor writes [lastcmd], output
    and return value are therefore the same, those of calling it directly,
    and the two interpreters left behind differ in [lastcmd] only. *)
Theorem alias_dispatches_like_target self A T S h :
  is_ident A → is_ident T →
  getattr self ("do_" ++ A) = None →
  getattr self (_wrap_alias A) = Some h →
  getattr self ("do_" ++ T) = Some h →
  let lineA := strip (A ++ " " ++ S) in
  let lineT := strip (T ++ " " ++ S) in
  onecmd self (A ++ " " ++ S)
    = (let '(s, r) := call h [strip S] (remember self lineA) in (s, Ok r)) ∧
  onecmd self (T ++ " " ++ S)
    = (let '(s, r) := call h [strip S] (remember self lineT) in (s, Ok r)) ∧
  (ignores_lastcmd h →
   ∃ s r, call h [strip S] self = (s, r) ∧
          onecmd self (A ++ " " ++ S) = (remember s lineA, Ok r) ∧
          onecmd self (T ++ " " ++ S) = (remember s lineT, Ok r)).
Proof.
  intros HA HT HdoA Hal HdoT lineA lineT.
  assert (Hq : blank_tail (" " ++ S)) by (right; by exists S).
  assert (HS : strip (" " ++ S) = strip S).
  { change (" " ++ S) with (String " " S). apply strip_blank_cons. }
  rewrite (onecmd_calls_alias self A _ h), (onecmd_calls_command self T _ h) by done.
  rewrite HS. fold lineA lineT. split_and!; [done | done |].
  intros Hh. rewrite !call_after_remember by done.
  destruct (call h [strip S] self) as [s r]. by exists s, r.
Qed.

End dispatch_props.

(** C4 as worded fails for an alias that carries the name of a command,
    which is found first ([help x] after [alias help alias] calls
    [do_help], not [do_alias]), and for an alias whose name is not read as
    one command word ([x-y z] after [alias x-y alias] is unknown syntax). *)
Lemma alias_named_like_command_is_shadowed :
  let self := after_alias (shell false) "help alias" in
  AliasMix.getattr self "alias_help" = Some AliasCmdInterpreter.do_alias_func ∧
  AliasMix.getattr self "do_alias" = Some AliasCmdInterpreter.do_alias_func ∧
  AliasMix.stdout (AliasMix.onecmd (H := tracing_host) self "help x").1 = "<do_help(x)>" ∧
  AliasMix.stdout (AliasMix.onecmd (H := tracing_host) self "alias x").1 = "<do_alias(x)>" ∧
  AliasMix.stdout (AliasMix.onecmd (H := tracing_host) self "help x").1
    ≠ AliasMix.stdout (AliasMix.onecmd (H := tracing_host) self "alias x").1 ∧
  let self' := after_alias (shell false) "x-y alias" in
  AliasMix.getattr self' "alias_x-y" = Some AliasCmdInterpreter.do_alias_func ∧
  AliasMix.stdout (AliasMix.onecmd (H := tracing_host) self' "x-y z").1
    = "*** Unknown syntax: x-y z
" ∧
  AliasMix.stdout (AliasMix.onecmd (H := tracing_host) self' "alias z").1 = "<do_alias(z)>".
Proof. vm_compute. split_and!; done. Qed.

(** The handlers of the tracing host write their trace and leave
    [lastcmd] alone. *)
Lemma tracing_handlers_ignore_lastcmd h : ignores_lastcmd (H := tracing_host) h.
Proof. intros args self line. reflexivity. Qed.

Lemma alias_dispatches_like_target_witness :
  let h := AliasCmdInterpreter.do_alias_func in
  AliasMix.onecmd (H := tracing_host) (shell false) ("a" ++ " " ++ "x y ")
    = (let '(s, r) := AliasMix.call (Host := tracing_host) h [strip "x y "]
                        (AliasMix.remember (shell false) (strip ("a" ++ " " ++ "x y ")))
       in (s, Ok r)) ∧
  AliasMix.onecmd (H := tracing_host) (shell false) ("alias" ++ " " ++ "x y ")
    = (let '(s, r) := AliasMix.call (Host := tracing_host) h [strip "x y "]
                        (AliasMix.remember (shell false) (strip ("alias" ++ " " ++ "x y ")))
       in (s, Ok r)) ∧
  ∃ s r, AliasMix.call (Host := tracing_host) h [strip "x y "] (shell false) = (s, r) ∧
         AliasMix.onecmd (H := tracing_host) (shell false) ("a" ++ " " ++ "x y ")
           = (AliasMix.remember s (strip ("a" ++ " " ++ "x y ")), Ok r) ∧
         AliasMix.onecmd (H := tracing_host) (shell false) ("alias" ++ " " ++ "x y ")
           = (AliasMix.remember s (strip ("alias" ++ " " ++ "x y ")), Ok r).
Proof.
  intros h.
  destruct (alias_dispatches_like_target (H := tracing_host) (shell false) "a" "alias" "x y " h)
    as (HA & HT & Hsame).
  - split; [done | reflexivity].
  - split; [done | reflexivity].
  - vm_compute. reflexivity.
  - vm_compute. reflexivity.
  - vm_compute. reflexivity.
  - split_and!; [exact HA | exact HT |].
    apply Hsame, tracing_handlers_ignore_lastcmd.
Defined.

(** ** Listing the aliases and reading the listing back *)

Section listing_props.
Import AliasMix AliasCmdInterpreter Listing.
Implicit Types (self : t) (a target : string) (l : list string).

Lemma no_char_app x (p q : string) :
  no_char x (p ++ q) = no_char x p && no_char x q.
Proof.
  induction p as [|c p IH]; [done |].
  rewrite app_cons_str. cbn [no_char]. by rewrite IH, andb_assoc.
Qed.

Lemma lines_line (line rest : string) :
  no_char LF line = true →
  lines (line ++ String LF rest) = line :: lines rest.
Proof.
  induction line as [|c line IH].
  - intros _. rewrite app_nil_l_str. cbn [lines]. by rewrite decide_True.
  - cbn [no_char]. intros [Hc Hl]%andb_prop.
    apply negb_true_iff, bool_decide_eq_false in Hc.
    rewrite app_cons_str. cbn [lines]. rewrite decide_False by done.
    by rewrite IH.
Qed.

Lemma parse_entry_line a target :
  no_char " " a = true → parse_entry (a ++ ": " ++ target) = Some (a, target).
Proof.
  induction a as [|c a IH].
  - intros _. rewrite app_nil_l_str.
    assert (E : ": " ++ target = String ":" (String " " target)) by reflexivity.
    rewrite E. cbn [parse_entry]. rewrite <- E, startswith_app. by rewrite E.
  - cbn [no_char]. intros [Hc Ha]%andb_prop.
    apply negb_true_iff, bool_decide_eq_false in Hc.
    rewrite app_cons_str. cbn [parse_entry].
    assert (Hno : startswith (String c (a ++ ": " ++ target)) ": " = false).
    { change ": " with (String ":" (String " " "")).
      rewrite startswith_cons. case_decide as Hcolon; [| done].
      destruct a as [|d a].
      - reflexivity.
      - cbn [no_char] in Ha. apply andb_prop in Ha as [Hd _].
        apply negb_true_iff, bool_decide_eq_false in Hd.
        rewrite app_cons_str, startswith_cons. by rewrite decide_False. }
    rewrite Hno, IH by done. reflexivity.
Qed.

Lemma listing_parts self l :
  Forall (λ a, is_Some (getattr self (_wrap_alias a))) l →
  mapM (λ alias,
          f ← getattr self (_wrap_alias alias);
          Some (alias ++ ": " ++ str_drop 3 (__name__ f) ++ String LF ""))
       l
  = Some (listing_line self <$> l).
Proof.
  induction 1 as [|a l [f Hf] _ IH]; [done |].
  cbn [mapM]. cbv beta. rewrite IH. rewrite Hf. cbn [mbind option_bind mret option_ret].
  rewrite fmap_cons. unfold listing_line, alias_target. by rewrite Hf.
Qed.

Lemma parse_listing self l :
  Forall (λ a, no_char " " a = true ∧ listable a ∧ listable (alias_target self a)) l →
  parse (join (listing_line self <$> l)) = Some ((λ a, (a, alias_target self a)) <$> l).
Proof.
  unfold parse. induction 1 as [|a l (Hb & Ha & Ht) _ IH]; [done |].
  rewrite fmap_cons. cbn [join foldr]. fold (join (listing_line self <$> l)).
  unfold listing_line at 1.
  replace ((a ++ ": " ++ alias_target self a ++ String LF "")
             ++ join (listing_line self <$> l))
    with ((a ++ ": " ++ alias_target self a)
             ++ String LF (join (listing_line self <$> l))).
  2:{ rewrite !app_assoc_str. do 3 f_equal. }
  rewrite lines_line.
  - cbn [mapM]. rewrite parse_entry_line, IH by done. reflexivity.
  - unfold listable in *. rewrite !no_char_app, Ha, Ht. reflexivity.
Qed.

(** C7, as the code has it: for an interpreter whose aliases are bound and
    have neither blank nor line feed in their names and targets,
    [do_alias('', suppress=True)] returns a text that, read line by line as
    [name: target], gives back exactly the names of [aliases], each once,
    and with each the name of the function the alias is bound to less its
    first three characters, which is the command name where that function
    is called [do_<command>]. *)
Theorem alias_listing_round_trip self :
  listable_aliases self →
  ∃ out entries,
    do_alias self "" true = (self, Ok (PStr out)) ∧
    parse out = Some entries ∧
    list_to_set entries.*1 = aliases self ∧
    NoDup entries.*1 ∧
    ∀ a target, (a, target) ∈ entries →
      ∃ f, getattr self (_wrap_alias a) = Some f ∧
           target = str_drop 3 (__name__ f) ∧
           ∀ c, __name__ f = "do_" ++ c → target = c.
Proof.
  intros Hwf.
  set (names := elements (aliases self)).
  assert (Hall : ∀ a, a ∈ names → a ∈ aliases self)
    by (intros a; apply elem_of_elements).
  exists (join (listing_line self <$> names)),
         ((λ a, (a, alias_target self a)) <$> names).
  assert (Hfst : ((λ a, (a, alias_target self a)) <$> names).*1 = names).
  { rewrite <- list_fmap_compose. apply list_fmap_id. }
  split_and!.
  - unfold do_alias. rewrite decide_False by (intros Hne; by apply Hne).
    fold names. rewrite listing_parts; [done |].
    apply Forall_forall. intros a Ha. by apply Hwf, Hall.
  - apply parse_listing. apply Forall_forall. intros a Ha.
    by apply Hwf, Hall.
  - rewrite Hfst. apply set_eq. intros a.
    unfold names. by rewrite elem_of_list_to_set, elem_of_elements.
  - rewrite Hfst. apply NoDup_elements.
  - intros a target (a' & [= -> ->] & Ha)%list_elem_of_fmap.
    destruct (Hwf a' (Hall _ Ha)) as ([f Hf] & _).
    exists f. unfold alias_target. rewrite Hf. cbn.
    split_and!; [done | done |].
    intros c ->. apply (str_drop_app "do_").
Qed.

(** C7 as worded fails for an alias whose name holds a line feed: after
    [alias x<LF>y EOF] the listing has the three lines [a: alias], [x] and
    [y: EOF], which do not read back as the aliases [a] and [x<LF>y]. *)
Lemma listing_splits_alias_with_line_feed :
  let self := after_alias (shell false) ("x" ++ String LF "y" ++ " EOF") in
  elements (aliases self) = ["a"; "x" ++ String LF "y"] ∧
  ∃ out,
    do_alias self "" true = (self, Ok (PStr out)) ∧
    lines out = ["a: alias"; "x"; "y: EOF"] ∧
    parse out = None.
Proof.
  cbv zeta. split; [by vm_compute |].
  eexists. split; [vm_compute; reflexivity |]. by vm_compute.
Qed.

End listing_props.

Lemma alias_listing_round_trip_witness :
  ∃ out entries,
    AliasCmdInterpreter.do_alias (after_alias (shell false) "q EOF") "" true
      = (after_alias (shell false) "q EOF", Ok (PStr out)) ∧
    Listing.parse out = Some entries ∧
    list_to_set entries.*1 = AliasMix.aliases (after_alias (shell false) "q EOF") ∧
    NoDup entries.*1 ∧
    ∀ a target, (a, target) ∈ entries →
      ∃ f, AliasMix.getattr (after_alias (shell false) "q EOF") (AliasMix._wrap_alias a) = Some f ∧
           target = str_drop 3 (__name__ f) ∧
           ∀ c, __name__ f = "do_" ++ c → target = c.
Proof.
  apply (alias_listing_round_trip (after_alias (shell false) "q EOF")).
  intros a Ha. apply elem_of_elements in Ha.
  assert (E : elements (AliasMix.aliases (after_alias (shell false) "q EOF")) = ["q"; "a"])
    by (vm_compute; reflexivity).
  rewrite E in Ha.
  apply elem_of_cons in Ha as [->|Ha]; [| apply list_elem_of_singleton in Ha as ->].
  - vm_compute. split_and!; eauto.
  - vm_compute. split_and!; eauto.
Defined.

(** ** The states the interpreter reaches keep their aliases bound *)

Section reachable_props.
Import AliasMix AliasCmdInterpreter.
Implicit Types (self : t) (arg : string) (suppress : bool).

Lemma split_parts_no_sep sep (s : string) :
  Forall (λ w, no_char sep w = true) (split sep s).
Proof.
  induction s as [|c s IH]; [by repeat constructor |].
  cbn [split]. case_decide as Hc.
  - by constructor.
  - assert (Hcw : ∀ w, no_char sep w = true → no_char sep (String c w) = true).
    { intros w Hw. cbn [no_char]. rewrite Hw. by rewrite bool_decide_eq_false_2. }
    destruct (split sep s) as [|w ws].
    + constructor; [by apply Hcw | constructor].
    + apply Forall_cons in IH as [Hw Hws]. constructor; [by apply Hcw | done].
Qed.

(** The name [do_alias] binds or deletes never holds a blank. *)
Lemma alias_name_no_blank arg : no_char " " (hd "" (split " " arg)) = true.
Proof.
  pose proof (split_parts_no_sep " " arg) as Hall.
  destruct (split " " arg) as [|w ws]; [done |].
  by apply Forall_cons in Hall as [Hw _].
Qed.

Lemma current_aliases_bound self :
  aliases self = get_aliases self → aliases_bound self.
Proof. intros E a. rewrite E. apply elem_of_get_aliases. Qed.

Lemma do_alias_keeps_aliases_bound self arg suppress :
  aliases_bound self → aliases_bound (do_alias self arg suppress).1.
Proof.
  intros Hb. destruct (decide (arg = "")) as [->|Harg].
  - unfold do_alias. rewrite decide_False by (intros Hne; by apply Hne).
    destruct (mapM _ _); [| done]. by destruct suppress.
  - destruct (do_alias_keeps_aliases_current self arg suppress Harg) as [-> | E];
      [done | by apply current_aliases_bound].
Qed.

Lemma init_aliases_bound class show enable force self :
  AliasCmdInterpreter.__init__ class show enable force = Ok self → aliases_bound self.
Proof.
  unfold AliasCmdInterpreter.__init__, __default_alias.
  set (self0 := AliasMix.__init__ class show).
  assert (H0 : aliases_bound self0) by by apply current_aliases_bound.
  assert (Hset : ∀ n f, aliases_bound (setattr self0 n f)).
  { intros n f a Ha. destruct (H0 a Ha) as [g Hg].
    unfold getattr, attrs in *. simpl in *.
    destruct (decide (n = _wrap_alias a)) as [->|Hne].
    - exists f. apply lookup_union_Some_l, lookup_insert_eq.
    - exists g. rewrite lookup_union, lookup_insert_ne by done.
      by rewrite <- lookup_union. }
  destruct enable; [| by intros [= <-]].
  destruct (negb _ || force); [| by intros [= <-]].
  destruct (getattr self0 "do_alias"); [| done]. intros [= <-]. apply Hset.
Qed.

End reachable_props.

(** ** Scenarios *)

Section scenarios.
Import AliasMix AliasCmdInterpreter.

(** Only the documented commands are offered as names. *)
Example scenario_completenames :
  completenames quit_list_shell "" = ["alias"; "help"; "quit"] ∧
  completenames quit_list_shell "q" = ["quit"].
Proof. by vm_compute. Qed.

(** [alias q quit], then [q] does what [quit] does; [alias q] removes the
    alias, and [q] is unknown again. *)
Example scenario_alias_then_remove :
  let self1 := after_alias quit_list_shell "q quit" in
  let self2 := after_alias self1 "q" in
  aliases self1 = {[ "q" ]} ∧
  (onecmd (H := tracing_host) self1 "q").2 = (onecmd (H := tracing_host) self1 "quit").2 ∧
  stdout (onecmd (H := tracing_host) self1 "q").1 = "<do_quit()>" ∧
  stdout (onecmd (H := tracing_host) self1 "quit").1 = "<do_quit()>" ∧
  lastcmd (onecmd (H := tracing_host) self1 "q").1 = "q" ∧
  lastcmd (onecmd (H := tracing_host) self1 "quit").1 = "quit" ∧
  aliases self2 = ∅ ∧
  stdout (onecmd (H := tracing_host) self2 "q").1 = "*** Unknown syntax: q
".
Proof. by vm_compute. Qed.

(** The cache filter drops what does not start with the text and what
    the line already holds, and offers a repeated option once. *)
Example scenario_candidates :
  CacheCompleteMix.candidates ["ab"; "ac"; "ab"; "b"] "a" "x ac" = ["ab"].
Proof. by vm_compute. Qed.

(** [help alias] writes the doc string of [do_alias], trimmed. *)
Example scenario_help_alias :
  stdout (do_help (H := tracing_host) (shell false) "alias").1 =
  "Set/clear aliases.
If no options are provided, print aliases and their corresponding commands.

Usage:
  alias [alias] [command]

Options:
  [alias]: alias to create
  [command]: command to map [alias] to.
             If blank it will clear the alias for [alias]
".
Proof. by vm_compute. Qed.

(** A second alias sharing the target, the listing, and its reading. *)
Example scenario_listing :
  let self := after_alias (shell false) "q EOF" in
  do_alias self "" true = (self, Ok (PStr "q: EOF
a: alias
")) ∧
  Listing.parse "q: EOF
a: alias
" = Some [("q", "EOF"); ("a", "alias")].
Proof. by vm_compute. Qed.

End scenarios.

(** ** Trimming a doc string *)

Section trim_props.
Implicit Types (s p q : string) (c : ascii) (l : list string).

Lemma spaces_S n :
  String.concat "" (replicate (S n) " ") = String " " (String.concat "" (replicate n " ")).
Proof. by destruct n. Qed.

Lemma tab_incr col : ∃ k, (8 - col mod 8)%nat = S k.
Proof.
  pose proof (Nat.mod_upper_bound col 8).
  exists (7 - col mod 8)%nat. lia.
Qed.

Lemma linebreak_isspace c : is_linebreak c = true → isspace c = true.
Proof.
  destruct c as [[] [] [] [] [] [] [] []]; intros Hc; vm_compute in Hc;
    try discriminate Hc; reflexivity.
Qed.

Lemma no_linebreak_spaces n s :
  no_linebreak (String.concat "" (replicate n " ") ++ s) = no_linebreak s.
Proof.
  induction n as [|n IH]; [done |].
  rewrite spaces_S, app_cons_str. cbn [no_linebreak]. by rewrite IH.
Qed.

Lemma all_space_spaces n s :
  all_space (String.concat "" (replicate n " ") ++ s) = all_space s.
Proof.
  induction n as [|n IH]; [done |].
  rewrite spaces_S, app_cons_str. cbn [all_space]. by rewrite IH.
Qed.

Lemma expandtabs_from_no_linebreak col s :
  no_linebreak s = true → no_linebreak (expandtabs_from col s) = true.
Proof.
  revert col. induction s as [|c s IH]; intros col; [done |].
  cbn [no_linebreak expandtabs_from]. intros [Hc Hs]%andb_prop.
  case_decide as Htab.
  - rewrite no_linebreak_spaces. by apply IH.
  - apply negb_true_iff in Hc. case_decide as Hnl.
    + destruct Hnl as [-> | ->]; done.
    + cbn [no_linebreak]. rewrite Hc. by apply IH.
Qed.

Lemma expandtabs_from_all_space col s :
  all_space s = true → all_space (expandtabs_from col s) = true.
Proof.
  revert col. induction s as [|c s IH]; intros col; [done |].
  cbn [all_space expandtabs_from]. intros [Hc Hs]%andb_prop.
  case_decide as Htab.
  - rewrite all_space_spaces. by apply IH.
  - case_decide; cbn [all_space]; rewrite Hc; by apply IH.
Qed.

Lemma expandtabs_from_nonempty col s : s ≠ "" → expandtabs_from col s ≠ "".
Proof.
  destruct s as [|c s]; [done |]. intros _. cbn [expandtabs_from].
  case_decide; [| by case_decide].
  destruct (tab_incr col) as [k ->]. by rewrite spaces_S.
Qed.

Lemma splitlines_one_line s :
  s ≠ "" → no_linebreak s = true → splitlines s = [s].
Proof.
  induction s as [|c s IH]; [done |]. intros _.
  cbn [no_linebreak splitlines]. intros [Hc Hs]%andb_prop.
  apply negb_true_iff in Hc. rewrite Hc.
  destruct s as [|d s]; [done |]. by rewrite IH.
Qed.

Lemma splitlines_all_space_upto n s :
  (String.length s ≤ n)%nat → all_space s = true →
  Forall (λ line, all_space line = true) (splitlines s).
Proof.
  revert s. induction n as [|n IH]; intros s Hn.
  { destruct s; [constructor | simpl in Hn; lia]. }
  destruct s as [|c s]; [constructor |].
  cbn [all_space splitlines]. intros [Hc Hs]%andb_prop. simpl in Hn.
  destruct (is_linebreak c).
  - destruct s as [|d s'].
    + by repeat constructor.
    + case_decide.
      * constructor; [done |]. apply IH; [simpl in Hn; lia |].
        cbn [all_space] in Hs. by apply andb_prop in Hs as [_ ?].
      * constructor; [done |]. apply IH; [lia | done].
  - assert (Hrec : Forall (λ line, all_space line = true) (splitlines s))
      by (apply IH; [lia | done]).
    destruct (splitlines s) as [|x xs].
    + repeat constructor. cbn [all_space]. by rewrite Hc.
    + apply Forall_cons in Hrec as [Hx Hxs]. constructor; [| done].
      cbn [all_space]. by rewrite Hc, Hx.
Qed.

Lemma splitlines_all_space s :
  all_space s = true → Forall (λ line, all_space line = true) (splitlines s).
Proof. by apply (splitlines_all_space_upto (String.length s)). Qed.

Lemma lstrip_all_space s : all_space s = true → lstrip s = "".
Proof.
  induction s as [|c s IH]; [done |]. cbn [all_space lstrip].
  intros [-> Hs]%andb_prop. by apply IH.
Qed.

Lemma rstrip_all_space s : all_space s = true → rstrip s = "".
Proof.
  induction s as [|c s IH]; [done |]. cbn [all_space rstrip].
  intros [-> Hs]%andb_prop. by rewrite IH.
Qed.

Lemma strip_all_space s : all_space s = true → strip s = "".
Proof. intros Hs. unfold strip. by rewrite rstrip_all_space. Qed.

End trim_props.

Section trim_results.
Implicit Types (s p q x : string) (c : ascii) (l : list string).

Lemma rstrip_app_fixed p q : q ≠ "" → rstrip q = q → rstrip (p ++ q) = p ++ q.
Proof.
  intros Hq Hr. induction p as [|c p IH]; [done |].
  rewrite app_cons_str. cbn [rstrip]. rewrite IH.
  destruct (p ++ q) eqn:E; [| done]. by destruct p, q.
Qed.

Lemma rstrip_cons_inv c s : rstrip (String c s) = String c s → rstrip s = s.
Proof.
  cbn [rstrip]. destruct (rstrip s) as [|d r] eqn:E.
  - destruct (isspace c); [done |]. by intros [= <-].
  - by intros [= <-].
Qed.

Lemma rstrip_lstrip s : rstrip s = s → rstrip (lstrip s) = lstrip s.
Proof.
  induction s as [|c s IH]; [done |]. intros Hs. cbn [lstrip].
  destruct (isspace c); [| done]. by apply IH, (rstrip_cons_inv c).
Qed.

Lemma rstrip_strip s : rstrip (strip s) = strip s.
Proof. apply rstrip_lstrip, rstrip_idemp. Qed.

Lemma pop_trailing_blank_Forall (P : string → Prop) l :
  Forall P l → Forall P (pop_trailing_blank l).
Proof.
  induction 1 as [|x l Hx Hl IH]; [constructor |]. cbn [pop_trailing_blank].
  destruct (pop_trailing_blank l);
    [case_decide; [constructor | by repeat constructor] | by constructor].
Qed.

Lemma pop_trailing_blank_last l x : last (pop_trailing_blank l) = Some x → x ≠ "".
Proof.
  induction l as [|y l IH]; [done |]. cbn [pop_trailing_blank].
  destruct (pop_trailing_blank l) as [|z r].
  - case_decide; [done |]. by intros [= <-].
  - intros Hl. by apply IH.
Qed.

Lemma pop_leading_blank_Forall (P : string → Prop) l :
  Forall P l → Forall P (pop_leading_blank l).
Proof.
  induction 1 as [|x l Hx Hl IH]; [constructor |]. cbn [pop_leading_blank].
  destruct x; [done | by constructor].
Qed.

Lemma pop_leading_blank_last l x :
  last (pop_leading_blank l) = Some x → last l = Some x.
Proof.
  induction l as [|y l IH]; [done |]. cbn [pop_leading_blank].
  destruct y; [| done]. intros Hl. specialize (IH Hl).
  destruct l; [done | done].
Qed.

Lemma join_sep_rstripped sep l :
  Forall (λ x, rstrip x = x) l → (∀ x, last l = Some x → x ≠ "") →
  rstrip (join_sep sep l) = join_sep sep l ∧ (l ≠ [] → join_sep sep l ≠ "").
Proof.
  induction 1 as [|x l Hx Hl IH]; [done |]. intros Hlast.
  destruct l as [|y r].
  - cbn [join_sep]. split; [done |]. intros _. by apply Hlast.
  - destruct IH as [IH1 IH2]; [intros z Hz; by apply Hlast |].
    specialize (IH2 ltac:(done)).
    change (join_sep sep (x :: y :: r)) with (x ++ sep ++ join_sep sep (y :: r)).
    assert (Hne : sep ++ join_sep sep (y :: r) ≠ "").
    { destruct sep; [done | done]. }
    split.
    + apply rstrip_app_fixed; [done |]. by apply rstrip_app_fixed.
    + intros _ E. by destruct x.
Qed.

(** X1: a doc string of one line, that is without a line boundary in it,
    comes out with its tabs expanded and stripped at both ends. *)
Theorem trim_docstring_one_line s :
  no_linebreak s = true → trim_docstring s = strip (expandtabs s).
Proof.
  intros Hs. unfold trim_docstring. case_decide as He; [by subst |].
  unfold expandtabs. rewrite splitlines_one_line;
    [| by apply expandtabs_from_nonempty | by apply expandtabs_from_no_linebreak].
  cbn [tail hd foldl]. rewrite N.ltb_irrefl. cbn [pop_trailing_blank].
  case_decide as E; [by rewrite E |].
  by destruct (strip (expandtabs_from 0 s)).
Qed.

(** X2: a doc string of white space only, over however many lines, trims
    to the empty string. *)
Theorem trim_docstring_blank s : all_space s = true → trim_docstring s = "".
Proof.
  intros Hs. unfold trim_docstring. case_decide as He; [done |].
  pose proof (splitlines_all_space _ (expandtabs_from_all_space 0 s Hs)) as Hall.
  fold (expandtabs s) in Hall.
  destruct (splitlines (expandtabs s)) as [|x xs]; [done |].
  apply Forall_cons in Hall as [Hx Hxs]. cbn [hd tail].
  assert (Hind : ∀ i, foldl (λ indent line,
               let stripped := lstrip line in
               if decide (stripped ≠ "") then
                 N.min indent (N.of_nat (String.length line - String.length stripped))
               else indent) i xs = i).
  { clear -Hxs. induction Hxs as [|y ys Hy _ IH]; intros i; [done |].
    cbn [foldl]. cbv zeta. rewrite (lstrip_all_space y) by done.
    rewrite decide_False by (intros Hne; by apply Hne). apply IH. }
  rewrite Hind. rewrite N.ltb_irrefl, strip_all_space by done. reflexivity.
Qed.

(** X3: whatever the doc string, the trimmed text does not end in white
    space: no blank line and no blank is left at its end. *)
Theorem trim_docstring_no_trailing_space s :
  rstrip (trim_docstring s) = trim_docstring s.
Proof.
  unfold trim_docstring. case_decide; [done |]. cbv zeta.
  match goal with
  | |- context [pop_trailing_blank ?t] => set (trimmed := t)
  end.
  assert (Hall : Forall (λ x, rstrip x = x) trimmed).
  { subst trimmed. destruct (_ <? _)%N.
    - apply Forall_app. split; [repeat constructor; apply rstrip_strip |].
      apply Forall_fmap, Forall_forall. intros line _. apply rstrip_idemp.
    - repeat constructor. apply rstrip_strip. }
  apply join_sep_rstripped.
  - by apply pop_leading_blank_Forall, pop_trailing_blank_Forall.
  - intros x Hx. by apply pop_leading_blank_last, pop_trailing_blank_last in Hx.
Qed.

End trim_results.

Lemma trim_docstring_one_line_witness :
  trim_docstring "  exit now  " = strip (expandtabs "  exit now  ").
Proof. apply trim_docstring_one_line. reflexivity. Defined.

Lemma trim_docstring_blank_witness :
  trim_docstring "
   " = "".
Proof. apply trim_docstring_blank. reflexivity. Defined.

(** ** More on the completion cache *)

Section cache_more.
Import CacheCompleteMix.
Implicit Types (self : t) (k text line : string).

Lemma entry_after_ask self q k :
  entry_after (ask self q).1 k = entry_after self k.
Proof.
  unfold ask. rewrite cache_completion_unfold. unfold entry_after at 1. simpl.
  destruct (decide (q_key q = k)) as [->|Hne].
  - by rewrite lookup_insert_eq.
  - by rewrite lookup_insert_ne.
Qed.

Lemma entry_after_ask_all self qs k :
  entry_after (ask_all self qs) k = entry_after self k.
Proof.
  revert self. induction qs as [|q qs IH]; intros self; [done |].
  cbn [ask_all foldl]. fold (ask_all (ask self q).1 qs).
  by rewrite IH, entry_after_ask.
Qed.

(** X4: the candidates returned are exactly the cached options that start
    with the text and do not occur in the line, each of them once, even
    when the source lists an option several times. *)
Theorem cache_completion_exact self k text line b e :
  let r := _cache_completion self k text line b e in
  NoDup r.2 ∧ ∀ c, c ∈ r.2 ↔ offered (entry_after self k) text line c.
Proof.
  cbv zeta. rewrite cache_completion_unfold. simpl. split.
  - apply candidates_NoDup.
  - intros c. apply candidates_spec.
Qed.

(** X5: once a key has been asked for, plugging another completion source
    in changes nothing for that key: later queries still filter what the
    first source gave, and leave the cache as it is. *)
Theorem cache_keeps_first_answer self k text line b e source text' line' b' e' :
  let self1 := (_cache_completion self k text line b e).1 in
  _cache_completion (set_completion_source self1 source) k text' line' b' e' =
    (set_completion_source self1 source,
     candidates (entry_after self k) text' line').
Proof.
  cbv zeta. apply cache_completion_hit. unfold set_completion_source. simpl.
  apply entry_after_stored.
Qed.

(** X6: what a query returns does not depend on the queries made before
    it, for the same key or for others. *)
Theorem cache_answers_do_not_depend_on_history self qs q :
  (ask (ask_all self qs) q).2 = (ask self q).2.
Proof.
  unfold ask. rewrite !cache_completion_unfold. simpl.
  by rewrite entry_after_ask_all.
Qed.

End cache_more.

(** ** More on the attribute listing *)

Section names_more.
Import AliasMix.
Implicit Types (self : t) (x text line : string).

Lemma EOF_not_in_prefix x : str_in "EOF" ("do_" ++ x) = str_in "EOF" x.
Proof.
  change ("do_" ++ x) with (String "d" (String "o" (String "_" x))).
  rewrite !str_in_cons.
  change "EOF" with (String "E" (String "O" (String "F" ""))).
  by rewrite !startswith_cons.
Qed.

(** X7: [completedefault] offers, whatever the text and the line, every
    name [x] for which an attribute [do_x] exists, except those with [EOF]
    anywhere in the name; each once. *)
Theorem completedefault_offers_commands_without_EOF self text line b e :
  NoDup (completedefault self text line b e) ∧
  ∀ x, x ∈ completedefault self text line b e ↔
       is_Some (getattr self ("do_" ++ x)) ∧ ¬ occurs_in "EOF" x.
Proof.
  unfold completedefault. split.
  - change 3 with (String.length "do_"). apply NoDup_fmap_2_strong.
    + intros a a' [Ha _]%list_elem_of_filter [Ha' _]%list_elem_of_filter E.
      apply andb_True in Ha as [Ha _]. apply andb_True in Ha' as [Ha' _].
      apply Is_true_true in Ha, Ha'.
      rewrite <- (strip_prefix "do_" a), <- (strip_prefix "do_" a') by done.
      by rewrite E.
    + apply NoDup_filter, NoDup_dir.
  - intros x. rewrite list_elem_of_fmap. split.
    + intros (n & -> & [Hn Hin]%list_elem_of_filter).
      apply andb_True in Hn as [Hp Hno]. apply Is_true_true in Hp.
      apply negb_True in Hno.
      change 3 with (String.length "do_").
      pose proof (strip_prefix "do_" n Hp) as E.
      rewrite E. split; [by apply elem_of_dir |].
      intros Hocc. apply Hno, Is_true_true. rewrite <- E, EOF_not_in_prefix.
      by apply str_in_spec.
    + intros [Hs Hno]. exists ("do_" ++ x). split.
      * symmetry. apply (str_drop_app "do_").
      * apply list_elem_of_filter. split; [| by apply elem_of_dir].
        apply andb_True. split; [apply Is_true_true, startswith_app |].
        apply negb_True. rewrite Is_true_true, EOF_not_in_prefix.
        by rewrite str_in_spec.
Qed.

(** X8: [get_aliases] is the set of the names [a] for which an attribute
    [alias_a] exists, on the instance or on the class. *)
Theorem get_aliases_are_the_bound_aliases self a :
  a ∈ get_aliases self ↔
  is_Some (inst self !! _wrap_alias a) ∨ is_Some (cls self !! _wrap_alias a).
Proof.
  rewrite elem_of_get_aliases. unfold getattr, attrs.
  rewrite lookup_union_is_Some. done.
Qed.

End names_more.

(** ** More on dispatching *)

Section dispatch_more.
Import AliasMix AliasCmdInterpreter.
Context `{Host}.
Implicit Types (self : t) (A q line : string) (l : list string).

Lemma filter_pair_none (a b : string) l :
  a ∉ l → b ∉ l → filter (λ n, n = a ∨ n = b) l = [].
Proof.
  induction l as [|x l IH]; [done |].
  intros [Hax Hal]%not_elem_of_cons [Hbx Hbl]%not_elem_of_cons.
  rewrite filter_cons_False; [auto |]. intros [->| ->]; done.
Qed.

Lemma filter_pair_first (a b : string) l :
  NoDup l → a ∈ l → b ∉ l → filter (λ n, n = a ∨ n = b) l = [a].
Proof.
  intros Hl Ha Hb. rewrite <- (filter_pair_single b a l Hl Ha Hb).
  apply list_filter_iff. intros x. tauto.
Qed.

Lemma filter_pair_sorted (a b : string) l :
  StronglySorted String.le l → NoDup l → a ∈ l → b ∈ l →
  String.le b a → a ≠ b → filter (λ n, n = a ∨ n = b) l = [b; a].
Proof.
  intros Hs. induction Hs as [|x l Hs IH Hx]; [by intros _ ?%elem_of_nil |].
  intros [Hxl Hl]%NoDup_cons Ha Hb Hle Hne.
  apply elem_of_cons in Ha as [->|Ha]; apply elem_of_cons in Hb as [->|Hb].
  - done.
  - rewrite Forall_forall in Hx. destruct Hne.
    apply (anti_symm String.le); [by apply Hx | done].
  - rewrite filter_cons_True by auto. f_equal. by apply filter_pair_first.
  - rewrite filter_cons_False; [auto |]. intros [->| ->]; done.
Qed.

Lemma lstrip_idemp s : lstrip (lstrip s) = lstrip s.
Proof.
  induction s as [|c s IH]; [done |]. cbn [lstrip].
  destruct (isspace c) eqn:Hc; [done |]. cbn [lstrip]. by rewrite Hc.
Qed.

Lemma strip_idemp s : strip (strip s) = strip s.
Proof.
  unfold strip. rewrite rstrip_lstrip by apply rstrip_idemp. apply lstrip_idemp.
Qed.

(** X9: a line whose command word is neither a command nor an alias is
    recorded in [lastcmd], stripped (the line [EOF] as the empty string),
    and reported as unknown syntax on [stdout]; [None] is returned, so the
    loop goes on.  Nothing but [lastcmd] and the output changes in the
    interpreter. *)
Theorem unknown_command_is_reported self A q :
  is_ident A → blank_tail q →
  getattr self ("do_" ++ A) = None → getattr self (_wrap_alias A) = None →
  onecmd self (A ++ q) =
    (write (remember self (strip (A ++ q)))
           ("*** Unknown syntax: " ++ strip (A ++ q) ++ String "010" ""), Ok PNone).
Proof.
  intros HA Hq Hdo Hal. rewrite onecmd_ident, Hdo by done. cbv zeta.
  unfold default. rewrite parseline_ident_again by done.
  rewrite filter_pair_none.
  - cbn [omap list_omap]. by rewrite strip_ident_app.
  - rewrite elem_of_dir, getattr_remember, Hdo. by intros [? ?].
  - rewrite elem_of_dir, getattr_remember, Hal. by intros [? ?].
Qed.

(** X10: where a name is both a command and an alias, [onecmd] calls the
    command, on the interpreter with the line recorded in [lastcmd], but
    [default] called on the same line calls the alias: in the sorted
    attribute listing [alias_<name>] comes before [do_<name>], and
    [default] takes the first match. *)
Theorem default_takes_alias_before_command self A q hc ha :
  is_ident A → blank_tail q →
  getattr self ("do_" ++ A) = Some hc → getattr self (_wrap_alias A) = Some ha →
  default self (A ++ q) = (let '(s, r) := call ha [strip q] self in (s, Ok r)) ∧
  onecmd self (A ++ q) =
    (let '(s, r) := call hc [strip q] (remember self (strip (A ++ q))) in (s, Ok r)).
Proof.
  intros HA Hq Hdo Hal. split; [| by apply onecmd_calls_command].
  unfold default. rewrite parseline_ident by done.
  rewrite (filter_pair_sorted _ (_wrap_alias A)).
  - cbn [omap list_omap]. by rewrite Hal.
  - apply dir_sorted.
  - apply NoDup_dir.
  - apply elem_of_dir. by rewrite Hdo.
  - apply elem_of_dir. by rewrite Hal.
  - by vm_compute.
  - by intros [=].
Qed.

(** X11: a line that starts with [!] cannot be parsed when the class has
    no [do_shell]; [parseline] then gives no command, and [default] raises
    [TypeError] on building ['do_' + cmd].  The exception reaches the caller
    of [onecmd], and the interpreter is left as it was. *)
Theorem bang_line_raises_without_do_shell self line rest :
  strip line = String "!" rest → hasattr self "do_shell" = false →
  default self line = (self, Raise TypeError) ∧
  onecmd self line = (self, Raise TypeError).
Proof.
  intros Hline Hsh.
  assert (Hp : ∀ ln : string, strip ln = String "!" rest →
                    parseline self ln = (None, String "!" rest)).
  { intros ln Hl. unfold parseline. rewrite Hl.
    rewrite decide_False by done. rewrite decide_True by done. by rewrite Hsh. }
  assert (Hd : ∀ ln : string, strip ln = String "!" rest →
                    default self ln = (self, Raise TypeError)).
  { intros ln Hl. unfold default. by rewrite Hp. }
  split; [by apply Hd |].
  unfold onecmd. rewrite Hp by done. apply Hd.
  rewrite <- Hline. apply strip_idemp.
Qed.

End dispatch_more.

Lemma unknown_command_is_reported_witness :
  AliasMix.onecmd (H := tracing_host) (shell false) ("quit" ++ " now ") =
    (AliasMix.write (AliasMix.remember (shell false) (strip ("quit" ++ " now ")))
       ("*** Unknown syntax: " ++ strip ("quit" ++ " now ") ++ String "010" ""), Ok PNone).
Proof.
  apply (unknown_command_is_reported (H := tracing_host) (shell false) "quit" " now ").
  - split; [done | reflexivity].
  - right. by exists "now ".
  - vm_compute. reflexivity.
  - vm_compute. reflexivity.
Defined.

Lemma default_takes_alias_before_command_witness :
  AliasMix.default (H := tracing_host) (after_alias (shell false) "help alias") ("help" ++ " x")
    = (let '(s, r) := AliasMix.call (Host := tracing_host)
                        AliasCmdInterpreter.do_alias_func [strip " x"]
                        (after_alias (shell false) "help alias") in (s, Ok r)) ∧
  AliasMix.onecmd (H := tracing_host) (after_alias (shell false) "help alias") ("help" ++ " x")
    = (let '(s, r) := AliasMix.call (Host := tracing_host)
                        AliasCmdInterpreter.do_help_func [strip " x"]
                        (AliasMix.remember (after_alias (shell false) "help alias")
                                           (strip ("help" ++ " x"))) in (s, Ok r)).
Proof.
  apply (default_takes_alias_before_command (H := tracing_host)
           (after_alias (shell false) "help alias") "help" " x").
  - split; [done | reflexivity].
  - right. by exists "x".
  - vm_compute. reflexivity.
  - vm_compute. reflexivity.
Defined.

Lemma bang_line_raises_without_do_shell_witness :
  AliasMix.default (H := tracing_host) (shell false) " !ls " = (shell false, Raise TypeError) ∧
  AliasMix.onecmd (H := tracing_host) (shell false) " !ls " = (shell false, Raise TypeError).
Proof.
  apply (bang_line_raises_without_do_shell (H := tracing_host) (shell false) " !ls " "ls").
  - reflexivity.
  - vm_compute. reflexivity.
Defined.

(** ** Choosing the completion function *)

Section complete_more.
Import AliasMix.
Context `{Host}.
Implicit Types (self : t) (rl : readline) (A q text : string).

Lemma lstrip_ident_app A q : is_ident A → lstrip (A ++ q) = A ++ q.
Proof.
  intros [Hne HA]. destruct A as [|c A]; [done |].
  cbn [all_identchars] in HA. apply andb_prop in HA as [Hc _].
  apply identchar_facts in Hc as (Hc & _).
  rewrite app_cons_str. cbn [lstrip]. by rewrite Hc.
Qed.

Lemma list_getitem_0 {B : Type} (l : list B) : list_getitem l 0 = l !! 0%nat.
Proof. reflexivity. Qed.

(** With nothing stripped from the line buffer, [complete] at state 0 runs
    the selected function on the buffer and the offsets as they are. *)
Lemma complete_first_unstripped rl self text c :
  lstrip (get_line_buffer rl) = get_line_buffer rl →
  select_compfunc self (get_line_buffer rl) (get_begidx rl) = Ok c →
  complete rl self text 0 =
    (let '(s, m) := run_compfunc c self text (get_line_buffer rl)
                      (get_begidx rl) (get_endidx rl) in
     (set_completion_matches s m, Ok (m !! 0%nat))).
Proof.
  intros Hl Hc. unfold complete. rewrite decide_True by done. cbv zeta.
  rewrite Hl, Z.sub_diag, !Z.sub_0_r, Hc.
  by destruct (run_compfunc _ _ _ _ _ _).
Qed.

Lemma select_compfunc_word self A q b :
  is_ident A → blank_tail q → (0 < b)%Z →
  select_compfunc self (A ++ q) b =
    match getattr self ("complete_" ++ A) with
    | Some f => Ok (Completer f)
    | None =>
        match getattr self (_wrap_alias A) with
        | Some a =>
            match getattr self ("complete_" ++ str_drop 3 (__name__ a)) with
            | Some f => Ok (Completer f)
            | None => Ok Completedefault
            end
        | None => Ok Completedefault
        end
    end.
Proof.
  intros HA Hq Hb. unfold select_compfunc.
  destruct (Z.ltb_spec 0 b) as [_|?]; [| lia].
  rewrite parseline_ident by done. destruct HA as [HA _].
  by rewrite decide_False.
Qed.

(** X12: while the cursor is in the first word of the line, leading white
    space not counted, [complete] at state 0 computes [completenames] for
    the text, stores the whole list, and returns its first element, or
    [None] when there is no candidate. *)
Theorem complete_in_first_word_offers_names rl self text :
  (get_begidx rl ≤ Z.of_nat (String.length (get_line_buffer rl))
                   - Z.of_nat (String.length (lstrip (get_line_buffer rl))))%Z →
  complete rl self text 0 =
    (set_completion_matches self (completenames self text),
     Ok (completenames self text !! 0%nat)).
Proof.
  intros Hb. unfold complete. rewrite decide_True by done. cbv zeta.
  unfold select_compfunc.
  destruct (Z.ltb_spec 0 (get_begidx rl
              - (Z.of_nat (String.length (get_line_buffer rl))
                 - Z.of_nat (String.length (lstrip (get_line_buffer rl))))))
    as [?|_]; [lia |].
  reflexivity.
Qed.

(** X13: after an alias as command word, for which no completer of its
    own exists, [complete] at state 0 calls the completer of the command
    the alias is bound to, [complete_<name>] with [<name>] taken from the
    bound function's [__name__], and stores what it returns. *)
Theorem complete_after_alias_uses_target_completer rl self text A q h f :
  get_line_buffer rl = A ++ q → is_ident A → blank_tail q →
  (0 < get_begidx rl)%Z →
  getattr self ("complete_" ++ A) = None →
  getattr self (_wrap_alias A) = Some h →
  getattr self ("complete_" ++ str_drop 3 (__name__ h)) = Some f →
  complete rl self text 0 =
    (let '(s, m) := call_completer f text (A ++ q) (get_begidx rl) (get_endidx rl) self in
     (set_completion_matches s m, Ok (m !! 0%nat))).
Proof.
  intros Hbuf HA Hq Hb Hno Hal Hf.
  rewrite (complete_first_unstripped rl self text (Completer f)).
  - by rewrite Hbuf.
  - rewrite Hbuf. by apply lstrip_ident_app.
  - rewrite Hbuf, select_compfunc_word by done. by rewrite Hno, Hal, Hf.
Qed.

(** X14: after a command word that has no completer, neither of its own
    nor through an alias, [complete] at state 0 falls back to
    [completedefault] and raises nothing. *)
Theorem complete_without_completer_uses_default rl self text A q :
  get_line_buffer rl = A ++ q → is_ident A → blank_tail q →
  (0 < get_begidx rl)%Z →
  getattr self ("complete_" ++ A) = None →
  (∀ h, getattr self (_wrap_alias A) = Some h →
        getattr self ("complete_" ++ str_drop 3 (__name__ h)) = None) →
  complete rl self text 0 =
    (set_completion_matches self
       (completedefault self text (A ++ q) (get_begidx rl) (get_endidx rl)),
     Ok (completedefault self text (A ++ q) (get_begidx rl) (get_endidx rl) !! 0%nat)).
Proof.
  intros Hbuf HA Hq Hb Hno Hal.
  rewrite (complete_first_unstripped rl self text Completedefault).
  - by rewrite Hbuf.
  - rewrite Hbuf. by apply lstrip_ident_app.
  - rewrite Hbuf, select_compfunc_word by done. rewrite Hno.
    destruct (getattr self (_wrap_alias A)) as [h|] eqn:E; [| done].
    by rewrite (Hal h).
Qed.

End complete_more.

Lemma complete_in_first_word_offers_names_witness :
  AliasMix.complete (H := tracing_host) (AliasMix.mkrl "  he" 2 4) (shell false) "he" 0 =
    (AliasMix.set_completion_matches (shell false)
       (AliasMix.completenames (shell false) "he"),
     Ok (AliasMix.completenames (shell false) "he" !! 0%nat)).
Proof.
  apply (complete_in_first_word_offers_names (H := tracing_host)
           (AliasMix.mkrl "  he" 2 4) (shell false) "he").
  vm_compute. discriminate.
Defined.

Lemma complete_after_alias_uses_target_completer_witness :
  AliasMix.complete (H := tracing_host) (AliasMix.mkrl ("h" ++ " al") 2 4)
      (after_alias (shell false) "h help") "al" 0 =
    (let '(s, m) := AliasMix.call_completer (Host := tracing_host)
                      AliasCmdInterpreter.complete_help_func "al" ("h" ++ " al") 2 4
                      (after_alias (shell false) "h help") in
     (AliasMix.set_completion_matches s m, Ok (m !! 0%nat))).
Proof.
  apply (complete_after_alias_uses_target_completer (H := tracing_host)
           (AliasMix.mkrl ("h" ++ " al") 2 4) (after_alias (shell false) "h help")
           "al" "h" " al" AliasCmdInterpreter.do_help_func
           AliasCmdInterpreter.complete_help_func).
  - reflexivity.
  - split; [done | reflexivity].
  - right. by exists "al".
  - reflexivity.
  - vm_compute. reflexivity.
  - vm_compute. reflexivity.
  - vm_compute. reflexivity.
Defined.

Lemma complete_without_completer_uses_default_witness :
  AliasMix.complete (H := tracing_host) (AliasMix.mkrl ("a" ++ " x") 2 3) (shell false) "x" 0 =
    (AliasMix.set_completion_matches (shell false)
       (AliasMix.completedefault (shell false) "x" ("a" ++ " x") 2 3),
     Ok (AliasMix.completedefault (shell false) "x" ("a" ++ " x") 2 3 !! 0%nat)).
Proof.
  apply (complete_without_completer_uses_default (H := tracing_host)
           (AliasMix.mkrl ("a" ++ " x") 2 3) (shell false) "x" "a" " x").
  - reflexivity.
  - split; [done | reflexivity].
  - right. by exists "x".
  - reflexivity.
  - vm_compute. reflexivity.
  - intros h Hh. vm_compute in Hh. injection Hh as <-. vm_compute. reflexivity.
Defined.

(** ** The topic listing of [do_help] *)

Section help_listing.
Import AliasMix.
Implicit Types (self : t) (c k n : string) (l names : list string) (acc : topics).

Lemma prefixed_inj pre (x y : string) : pre ++ x = pre ++ y → x = y.
Proof. apply (inj (String.app pre)). Qed.

Lemma prefixed_iff pre n x :
  n = pre ++ x ↔ startswith n pre = true ∧ str_drop (String.length pre) n = x.
Proof.
  split.
  - intros ->. split; [apply startswith_app | apply str_drop_app].
  - intros [Hp <-]. symmetry. by apply strip_prefix.
Qed.

Lemma collect_help_fold names (help0 : list string) k :
  k ∈ foldl (λ help name,
               if startswith name "help_" then
                 let k := str_drop 5 name in
                 if bool_decide (k ∈ help) then help else (help ++ [k])%list
               else help) help0 names
  ↔ k ∈ help0 ∨ "help_" ++ k ∈ names.
Proof.
  revert help0. induction names as [|n names IH]; intros help0.
  { cbn [foldl]. rewrite elem_of_nil. tauto. }
  cbn [foldl]. rewrite IH, elem_of_cons.
  change 5 with (String.length "help_").
  destruct (startswith n "help_") eqn:Hp.
  - cbv zeta. case_bool_decide as Hin.
    + split; [tauto |]. intros [?|[E|?]]; [tauto | | tauto].
      left. symmetry in E. apply prefixed_iff in E as [_ <-]. done.
    + rewrite elem_of_app, list_elem_of_singleton. split.
      * intros [[?| ->]|?]; [tauto | | tauto].
        right. left. by apply strip_prefix.
      * intros [?|[E|?]]; [tauto | | tauto].
        left. right. symmetry in E. by apply prefixed_iff in E as [_ <-].
  - split; [tauto |]. intros [?|[E|?]]; [tauto | | tauto].
    symmetry in E. apply prefixed_iff in E as [Hp' _]. congruence.
Qed.

Lemma collect_help_spec names k :
  k ∈ collect_help names ↔ "help_" ++ k ∈ names.
Proof.
  unfold collect_help. rewrite collect_help_fold, elem_of_nil. tauto.
Qed.

End help_listing.

Section help_classes.
Import AliasMix.
Implicit Types (self : t) (c k n : string) (l names : list string) (acc : topics).

Lemma classify_other self acc n :
  startswith n "do_" = false → classify self acc n = acc.
Proof. intros Hn. unfold classify. by rewrite Hn. Qed.

Lemma classify_command self acc c :
  "do_" ++ c ≠ prevname acc →
  let acc' := classify self acc ("do_" ++ c) in
  prevname acc' = "do_" ++ c ∧
  (∀ x, x ∈ cmds_doc acc' ↔
        x ∈ cmds_doc acc ∨ (x = c ∧ (c ∈ help acc ∨ documented self c))) ∧
  (∀ x, x ∈ cmds_undoc acc' ↔
        x ∈ cmds_undoc acc ∨ (x = c ∧ (c ∉ help acc) ∧ ¬ documented self c)) ∧
  (∀ x, x ∈ help acc' ↔ x ∈ help acc ∧ x ≠ c).
Proof.
  intros Hprev. cbv zeta. unfold classify, documented.
  rewrite startswith_app, decide_False by done.
  change 3 with (String.length "do_"). rewrite str_drop_app.
  case_bool_decide as Hin.
  - cbn [prevname cmds_doc cmds_undoc help]. split_and!; [done | | |].
    + intros x. rewrite elem_of_app, list_elem_of_singleton. tauto.
    + intros x. tauto.
    + intros x. rewrite list_elem_of_filter. tauto.
  - destruct (truthy (getattr self ("do_" ++ c) ≫= __doc__)) eqn:Hd;
      cbn [prevname cmds_doc cmds_undoc help]; (split_and!; [done | | |]).
    + intros x. rewrite elem_of_app, list_elem_of_singleton. tauto.
    + intros x. split; [tauto |]. intros [?|(_ & _ & Hn)]; [done | by destruct Hn].
    + intros x. split; [| tauto]. intros Hx. split; [done |]. by intros ->.
    + intros x. split; [tauto |]. intros [?|(_ & [?|?])]; done.
    + intros x. rewrite elem_of_app, list_elem_of_singleton.
      split; [| tauto]. intros [?|Hx]; [tauto |]. right. by split_and!.
    + intros x. split; [| tauto]. intros Hx. split; [done |]. by intros ->.
Qed.

Lemma classify_fold self l acc :
  NoDup l →
  (∀ n, n ∈ l → startswith n "do_" = true → n ≠ prevname acc) →
  let res := foldl (classify self) acc l in
  (∀ c, c ∈ cmds_doc res ↔
        c ∈ cmds_doc acc ∨ ("do_" ++ c ∈ l ∧ (c ∈ help acc ∨ documented self c))) ∧
  (∀ c, c ∈ cmds_undoc res ↔
        c ∈ cmds_undoc acc ∨ ("do_" ++ c ∈ l ∧ (c ∉ help acc) ∧ ¬ documented self c)) ∧
  (∀ k, k ∈ help res ↔ k ∈ help acc ∧ "do_" ++ k ∉ l).
Proof.
  revert acc. induction l as [|n l IH]; intros acc Hnd Hprev.
  { cbn [foldl]. split_and!; intros x; rewrite elem_of_nil; tauto. }
  apply NoDup_cons in Hnd as [Hn Hnd]. cbn [foldl].
  destruct (startswith n "do_") eqn:Hdo.
  - pose proof (strip_prefix "do_" n Hdo) as E.
    set (cmd := str_drop (String.length "do_") n) in E. rewrite <- E in *.
    assert (Hp : "do_" ++ cmd ≠ prevname acc).
    { apply Hprev; [left | apply startswith_app]. }
    destruct (classify_command self acc cmd Hp) as (P0 & P1 & P2 & P3).
    destruct (IH (classify self acc ("do_" ++ cmd)) Hnd) as (I1 & I2 & I3).
    { intros m Hm _. rewrite P0. by intros ->. }
    assert (Hin : ∀ c, "do_" ++ c ∈ ("do_" ++ cmd) :: l ↔ c = cmd ∨ "do_" ++ c ∈ l).
    { intros c. rewrite elem_of_cons. split; (intros [Hc|?]; [left | by right]).
      - by apply prefixed_inj in Hc.
      - by rewrite Hc. }
    assert (Hout : ∀ c, "do_" ++ c ∈ l → c ≠ cmd) by (by intros c Hc ->).
    split_and!.
    + intros c. rewrite I1, P1, P3, Hin. specialize (Hout c).
      destruct (decide (c = cmd)) as [->|Hne]; tauto.
    + intros c. rewrite I2, P2, P3, Hin. specialize (Hout c).
      destruct (decide (c = cmd)) as [->|Hne]; tauto.
    + intros k. rewrite I3, P3, Hin. tauto.
  - rewrite classify_other by done.
    destruct (IH acc Hnd) as (I1 & I2 & I3).
    { intros m Hm. apply Hprev. by right. }
    assert (Hin : ∀ c, "do_" ++ c ∈ n :: l ↔ "do_" ++ c ∈ l).
    { intros c. rewrite elem_of_cons. split; [| tauto].
      intros [Hc|?]; [| done]. rewrite <- Hc, startswith_app in Hdo. done. }
    split_and!; intros c; rewrite ?I1, ?I2, ?I3, Hin; tauto.
Qed.

(** X15: [do_help] without a topic writes the leader and hands three
    lists to [print_topics].  Every command is in exactly one of the first
    and the last: under the documented commands when a help provider of its
    name exists or its doc string is not empty, under the undocumented ones
    otherwise.  The miscellaneous topics are the help providers for which
    no command exists.  Alias attributes play no part in the three lists. *)
Theorem do_help_lists_each_command_once `{Host} self :
  let t := help_topics self in
  do_help self "" =
    (print_topics undoc_header (cmds_undoc t) 15 80
       (print_topics misc_header (help t) 15 80
          (print_topics doc_header (cmds_doc t) 15 80
             (write self (doc_leader ++ String "010" "")))), Ok PNone) ∧
  (∀ c, c ∈ cmds_doc t ↔
        is_Some (getattr self ("do_" ++ c)) ∧
        (is_Some (getattr self ("help_" ++ c)) ∨ documented self c)) ∧
  (∀ c, c ∈ cmds_undoc t ↔
        is_Some (getattr self ("do_" ++ c)) ∧
        getattr self ("help_" ++ c) = None ∧ ¬ documented self c) ∧
  (∀ k, k ∈ help t ↔
        is_Some (getattr self ("help_" ++ k)) ∧ getattr self ("do_" ++ k) = None).
Proof.
  cbv zeta. split.
  { unfold do_help. rewrite decide_False by (intros Hne; by apply Hne). reflexivity. }
  unfold help_topics.
  assert (Hperm : merge_sort String.le (get_names self) ≡ₚ get_names self)
    by apply merge_sort_Permutation.
  assert (Hmem : ∀ n, n ∈ merge_sort String.le (get_names self) ↔ is_Some (getattr self n)).
  { intros n. rewrite Hperm. apply elem_of_dir. }
  assert (Hhelp : ∀ k, k ∈ collect_help (get_names self) ↔ is_Some (getattr self ("help_" ++ k))).
  { intros k. rewrite collect_help_spec. apply elem_of_dir. }
  destruct (classify_fold self (merge_sort String.le (get_names self))
              (mktopics "" [] [] (collect_help (get_names self)))) as (I1 & I2 & I3).
  { rewrite Hperm. apply NoDup_dir. }
  { intros n _ Hn. cbn [prevname]. by intros ->. }
  cbn [cmds_doc cmds_undoc help] in I1, I2, I3.
  split_and!.
  - intros c. rewrite I1, elem_of_nil, Hmem, Hhelp. tauto.
  - intros c. rewrite I2, elem_of_nil, Hmem, Hhelp, <- eq_None_not_Some. tauto.
  - intros k. rewrite I3, Hmem, Hhelp, <- eq_None_not_Some. tauto.
Qed.

End help_classes.

(** ** The default alias *)

Section seeding_more.
Import AliasMix AliasCmdInterpreter.
Implicit Types (self : t) (class : gmap string func) (force show : bool).

Lemma getattr_setattr self name v n :
  getattr (setattr self name v) n = if decide (name = n) then Some v else getattr self n.
Proof.
  unfold getattr, attrs. simpl. rewrite !lookup_union, lookup_insert.
  case_decide; [by destruct (cls self !! n) | done].
Qed.

Lemma setattr_again self name v :
  setattr (setattr self name v) name v = setattr self name v.
Proof. unfold setattr, set_inst. simpl. by rewrite insert_insert_eq. Qed.

(** X16: binding the default alias is idempotent: where [__default_alias]
    has gone through, a second call with the same [force] leaves the
    interpreter exactly as the first one did. *)
Theorem default_alias_twice_is_once self force self1 :
  __default_alias self force = Ok self1 → __default_alias self1 force = Ok self1.
Proof.
  unfold __default_alias.
  destruct (negb (hasattr self (_wrap_alias "a")) || force) eqn:Hc.
  - destruct (getattr self "do_alias") as [f|] eqn:Hf; [| done]. intros [= <-].
    assert (Hhas : hasattr (setattr self (_wrap_alias "a") f) (_wrap_alias "a") = true).
    { unfold hasattr. rewrite getattr_setattr, decide_True by done.
      by apply bool_decide_eq_true_2. }
    rewrite Hhas. destruct force; [| done]. cbn [negb orb].
    rewrite getattr_setattr, decide_False by done.
    by rewrite Hf, setattr_again.
  - intros [= <-]. by rewrite Hc.
Qed.

(** X17: where construction seeds no alias, that is with [enable_alias]
    off, or with an alias [a] defined by the class and [force_alias] off, it
    binds no function on the instance: every command, alias, help provider
    and completer looked up is the one the class defines.  The [aliases]
    attribute then equals [get_aliases()], and its members are the aliases
    the class defines. *)
Theorem init_without_seeding_is_consistent class show enable force :
  enable = false ∨ (is_Some (class !! "alias_a") ∧ force = false) →
  ∃ self,
    AliasCmdInterpreter.__init__ class show enable force = Ok self ∧
    (∀ n, inst self !! n = None) ∧
    (∀ n, getattr self n = class !! n) ∧
    aliases self = get_aliases self ∧
    (∀ a, a ∈ aliases self ↔ is_Some (class !! _wrap_alias a)).
Proof.
  intros Hcase. exists (AliasMix.__init__ class show).
  assert (Hg : ∀ n, getattr (AliasMix.__init__ class show) n = class !! n).
  { intros n. unfold getattr, attrs. simpl. by rewrite (left_id_L ∅ (∪)). }
  split_and!; [| done | done | done |].
  - unfold AliasCmdInterpreter.__init__.
    destruct Hcase as [-> | [Hsome ->]]; [done |].
    destruct enable; [| done]. unfold __default_alias.
    assert (Hhas : hasattr (AliasMix.__init__ class show) (_wrap_alias "a") = true).
    { unfold hasattr. apply bool_decide_eq_true_2. by rewrite Hg. }
    by rewrite Hhas.
  - intros a.
    change (aliases (AliasMix.__init__ class show))
      with (get_aliases (mk class ∅ ∅ show None "" "")).
    rewrite elem_of_get_aliases. unfold getattr, attrs. simpl.
    by rewrite (left_id_L ∅ (∪)).
Qed.

(** X18: with [force_alias] on, the alias [a] is bound to [do_alias]
    whatever the class had under that name; the binding is made on the
    instance, and what the class defines is not touched. *)
Theorem forced_default_alias_is_bound class show f :
  class !! "do_alias" = Some f →
  ∃ self,
    AliasCmdInterpreter.__init__ class show true true = Ok self ∧
    getattr self "alias_a" = Some f ∧
    inst self = {[ "alias_a" := f ]} ∧ cls self = class.
Proof.
  intros Hf. exists (setattr (AliasMix.__init__ class show) "alias_a" f).
  split_and!; [| | done | done].
  - unfold AliasCmdInterpreter.__init__, __default_alias.
    rewrite orb_true_r.
    assert (Hg : getattr (AliasMix.__init__ class show) "do_alias" = Some f).
    { unfold getattr, attrs. simpl. by rewrite (left_id_L ∅ (∪)). }
    by rewrite Hg.
  - by rewrite getattr_setattr, decide_True.
Qed.

End seeding_more.

Lemma default_alias_twice_is_once_witness :
  AliasCmdInterpreter.__default_alias (shell false) true = Ok (shell false).
Proof.
  apply (default_alias_twice_is_once
           (AliasMix.__init__ AliasCmdInterpreter.methods false) true (shell false)).
  vm_compute. reflexivity.
Defined.

Lemma init_without_seeding_is_consistent_witness :
  ∃ self,
    AliasCmdInterpreter.__init__
      (AliasCmdInterpreter.subclass {[ "alias_a" := AliasCmdInterpreter.do_EOF_func ]})
      false true false = Ok self ∧
    (∀ n, AliasMix.inst self !! n = None) ∧
    (∀ n, AliasMix.getattr self n =
          AliasCmdInterpreter.subclass
            {[ "alias_a" := AliasCmdInterpreter.do_EOF_func ]} !! n) ∧
    AliasMix.aliases self = AliasMix.get_aliases self ∧
    (∀ a, a ∈ AliasMix.aliases self ↔
          is_Some (AliasCmdInterpreter.subclass
                     {[ "alias_a" := AliasCmdInterpreter.do_EOF_func ]}
                   !! AliasMix._wrap_alias a)).
Proof.
  apply init_without_seeding_is_consistent. right. split; [| done].
  vm_compute. eauto.
Defined.

Lemma forced_default_alias_is_bound_witness :
  ∃ self,
    AliasCmdInterpreter.__init__
      (AliasCmdInterpreter.subclass {[ "alias_a" := AliasCmdInterpreter.do_EOF_func ]})
      false true true = Ok self ∧
    AliasMix.getattr self "alias_a" = Some AliasCmdInterpreter.do_alias_func ∧
    AliasMix.inst self = {[ "alias_a" := AliasCmdInterpreter.do_alias_func ]} ∧
    AliasMix.cls self =
      AliasCmdInterpreter.subclass {[ "alias_a" := AliasCmdInterpreter.do_EOF_func ]}.
Proof.
  apply forced_default_alias_is_bound. vm_compute. reflexivity.
Defined.

(** ** Creating, rebinding and removing aliases *)

Section alias_more.
Import AliasMix AliasCmdInterpreter.
Implicit Types (self : t) (arg A B T n : string) (suppress : bool) (h : func).

Lemma split_two A T :
  no_char " " A = true → no_char " " T = true → split " " (A ++ " " ++ T) = [A; T].
Proof.
  intros HA HT. change (" " ++ T) with (String " " T).
  rewrite split_word_app by done. by rewrite split_word.
Qed.

Lemma two_words_nonempty A T : A ++ " " ++ T ≠ "".
Proof. by destruct A. Qed.

Lemma getattr_unset self name n :
  getattr (set_inst self (delete name (inst self))) n =
    if decide (name = n) then cls self !! n else getattr self n.
Proof.
  unfold getattr, attrs. simpl. rewrite !lookup_union, lookup_delete.
  case_decide; [by destruct (cls self !! n) | done].
Qed.

Lemma refreshed_eq self self' :
  cls self = cls self' → inst self = inst self' →
  SHOW_ALIAS self = SHOW_ALIAS self' →
  completion_matches self = completion_matches self' →
  stdout self = stdout self' →
  lastcmd self = lastcmd self' →
  set_aliases self (get_aliases self) = set_aliases self' (get_aliases self').
Proof.
  destruct self, self'. simpl. intros -> -> -> -> -> ->. reflexivity.
Qed.

Lemma do_alias_other_attrs self arg suppress n :
  n ≠ _wrap_alias (hd "" (split " " arg)) →
  getattr (do_alias self arg suppress).1 n = getattr self n.
Proof.
  intros Hn. destruct (decide (arg = "")) as [->|Harg].
  - unfold do_alias. rewrite decide_False by (intros Hne; by apply Hne).
    destruct (mapM _ _); [| done]. by destruct suppress.
  - destruct (resolve_target self (split " " arg)) as [c|] eqn:Hc.
    + rewrite (do_alias_bind _ _ _ c) by done. cbn [fst].
      change (getattr (set_aliases ?s ?a) n) with (getattr s n).
      by rewrite getattr_setattr, decide_False.
    + rewrite do_alias_unbind by done. cbn [fst].
      destruct (delattr self _) as [s|] eqn:Hd; [| done].
      apply delattr_Some in Hd as [_ ->].
      change (getattr (set_aliases ?s ?a) n) with (getattr s n).
      by rewrite getattr_unset, decide_False.
Qed.

Lemma unbound_after_delete self arg suppress :
  arg ≠ "" → resolve_target self (split " " arg) = None →
  cls self !! _wrap_alias (hd "" (split " " arg)) = None →
  getattr (do_alias self arg suppress).1 (_wrap_alias (hd "" (split " " arg))) = None.
Proof.
  intros Harg Hres Hcls. rewrite do_alias_unbind by done. cbn [fst].
  destruct (delattr self _) as [s|] eqn:Hd.
  - apply delattr_Some in Hd as [_ ->].
    change (getattr (set_aliases ?s ?a) ?n) with (getattr s n).
    by rewrite getattr_unset, decide_True.
  - apply delattr_None in Hd. by apply getattr_None.
Qed.

(** X19: [alias A T], for a command [T], binds [alias_A] to the very
    function [do_T] holds, puts [A] among the aliases, which are then those
    of [get_aliases()], returns [None], writes nothing, and changes no other
    attribute. *)
Theorem alias_binds_target_handler self A T h suppress :
  no_char " " A = true → no_char " " T = true →
  getattr self ("do_" ++ T) = Some h →
  let r := do_alias self (A ++ " " ++ T) suppress in
  r.2 = Ok PNone ∧
  getattr r.1 (_wrap_alias A) = Some h ∧
  A ∈ aliases r.1 ∧ aliases r.1 = get_aliases r.1 ∧
  stdout r.1 = stdout self ∧
  ∀ n, n ≠ _wrap_alias A → getattr r.1 n = getattr self n.
Proof.
  intros HA HT Hh r.
  assert (Hr : r = (let self' := setattr self (_wrap_alias A) h in
                    set_aliases self' (get_aliases self'), Ok PNone)).
  { subst r. rewrite (do_alias_bind _ _ _ h).
    - by rewrite split_two.
    - apply two_words_nonempty.
    - rewrite split_two by done. unfold resolve_target. cbn [lookup list_lookup].
      by rewrite Hh. }
  rewrite Hr. cbv zeta. cbn [fst snd].
  assert (Hg : getattr (setattr self (_wrap_alias A) h) (_wrap_alias A) = Some h)
    by (by rewrite getattr_setattr, decide_True).
  split_and!; [done | done | | done | done |].
  - change (aliases (set_aliases ?s ?a)) with a.
    apply elem_of_get_aliases. by rewrite Hg.
  - intros n Hn. change (getattr (set_aliases ?s ?a) n) with (getattr s n).
    by rewrite getattr_setattr, decide_False.
Qed.

(** X20: an alias of an alias is bound to the function itself, not to
    the first alias: after [alias B A], with [A] an alias and no command,
    removing [A] again leaves [B] bound to that function. *)
Theorem alias_of_alias_outlives_it self A B h :
  A ≠ "" → no_char " " A = true → no_char " " B = true → A ≠ B →
  getattr self ("do_" ++ A) = None → getattr self (_wrap_alias A) = Some h →
  let self1 := after_alias self (B ++ " " ++ A) in
  let self2 := after_alias self1 A in
  getattr self1 (_wrap_alias B) = Some h ∧
  getattr self2 (_wrap_alias B) = Some h ∧
  (cls self !! _wrap_alias A = None → getattr self2 (_wrap_alias A) = None).
Proof.
  intros HneA HA HB HAB Hdo Hal self1 self2.
  assert (Hwrap : _wrap_alias B ≠ _wrap_alias A).
  { intros E. apply prefixed_inj in E. by destruct HAB. }
  assert (H1 : self1 = (let self' := setattr self (_wrap_alias B) h in
                        set_aliases self' (get_aliases self'))).
  { subst self1. unfold after_alias. rewrite (do_alias_bind _ _ _ h).
    - by rewrite split_two.
    - apply two_words_nonempty.
    - rewrite split_two by done. unfold resolve_target. cbn [lookup list_lookup].
      by rewrite Hdo, Hal. }
  assert (HB1 : getattr self1 (_wrap_alias B) = Some h).
  { rewrite H1. cbv zeta.
    change (getattr (set_aliases ?s ?a) ?n) with (getattr s n).
    by rewrite getattr_setattr, decide_True. }
  assert (Hsplit : split " " A = [A]) by (by apply split_word).
  split_and!; [done | |].
  - subst self2. unfold after_alias. rewrite do_alias_other_attrs; [done |].
    by rewrite Hsplit.
  - intros Hcls. subst self2. unfold after_alias.
    assert (Hres : resolve_target self1 (split " " A) = None) by (by rewrite Hsplit).
    pose proof (unbound_after_delete self1 A false HneA Hres) as Hdel.
    rewrite Hsplit in Hdel. cbn [hd] in Hdel. apply Hdel.
    by rewrite H1.
Qed.

End alias_more.

Section alias_compose.
Import AliasMix AliasCmdInterpreter.
Implicit Types (self : t) (arg A B T n : string) (suppress : bool) (h : func).

Lemma do_alias_frame self arg suppress :
  let self1 := (do_alias self arg suppress).1 in
  cls self1 = cls self ∧ SHOW_ALIAS self1 = SHOW_ALIAS self ∧
  completion_matches self1 = completion_matches self ∧
  lastcmd self1 = lastcmd self.
Proof.
  cbv zeta. destruct (decide (arg = "")) as [->|Harg].
  - unfold do_alias. rewrite decide_False by (intros Hne; by apply Hne).
    destruct (mapM _ _); [| done]. by destruct suppress.
  - destruct (resolve_target self (split " " arg)) as [c|] eqn:Hc.
    + by rewrite (do_alias_bind _ _ _ c).
    + rewrite do_alias_unbind by done. cbn [fst].
      destruct (delattr self _) as [s|] eqn:Hd; [| done].
      by apply delattr_Some in Hd as [_ ->].
Qed.

Lemma do_alias_rebindable self arg suppress v :
  arg ≠ "" →
  let self1 := (do_alias self arg suppress).1 in
  stdout self1 = stdout self ∧
  <[_wrap_alias (hd "" (split " " arg)) := v]> (inst self1)
    = <[_wrap_alias (hd "" (split " " arg)) := v]> (inst self).
Proof.
  intros Harg. cbv zeta.
  destruct (resolve_target self (split " " arg)) as [c|] eqn:Hc.
  - rewrite (do_alias_bind _ _ _ c) by done. simpl. by rewrite insert_insert_eq.
  - rewrite do_alias_unbind by done. cbn [fst].
    destruct (delattr self _) as [s|] eqn:Hd; [| done].
    apply delattr_Some in Hd as [_ ->]. simpl. by rewrite insert_delete_eq.
Qed.

(** X21: binding an alias again replaces what [alias] did to that name
    before: whatever the earlier command for the name [A] was, binding,
    rebinding or deleting, [alias A T] after it gives the same interpreter
    as [alias A T] alone. *)
Theorem alias_rebinding_last_wins self arg A T h suppress :
  arg ≠ "" → hd "" (split " " arg) = A →
  no_char " " A = true → no_char " " T = true →
  getattr self ("do_" ++ T) = Some h →
  do_alias (do_alias self arg suppress).1 (A ++ " " ++ T) suppress
    = do_alias self (A ++ " " ++ T) suppress.
Proof.
  intros Harg HhdA HA HT Hh.
  set (self1 := (do_alias self arg suppress).1).
  assert (Hh1 : getattr self1 ("do_" ++ T) = Some h).
  { subst self1. rewrite do_alias_other_attrs; [done |]. discriminate. }
  assert (Hres : ∀ s, getattr s ("do_" ++ T) = Some h →
                      resolve_target s (split " " (A ++ " " ++ T)) = Some h).
  { intros s Hs. rewrite split_two by done. unfold resolve_target.
    cbn [lookup list_lookup]. by rewrite Hs. }
  rewrite !(do_alias_bind _ _ _ h) by auto using two_words_nonempty.
  rewrite split_two by done. cbn [hd]. cbv zeta. f_equal.
  destruct (do_alias_frame self arg suppress) as (Hc & Hs & Hm & Hl).
  destruct (do_alias_rebindable self arg suppress h Harg) as (Ho & Hi).
  rewrite HhdA in Hi. fold self1 in Hc, Hs, Hm, Hl, Ho, Hi.
  apply refreshed_eq; simpl; congruence.
Qed.

(** X22: binding a new alias and removing it again gives back the
    attributes as they were: the instance dictionary, the class, the output
    and the stored matches are those from before, and [aliases] is what
    [get_aliases()] gives for them. *)
Theorem alias_bind_then_remove_restores self A T h :
  A ≠ "" → no_char " " A = true → no_char " " T = true →
  getattr self ("do_" ++ T) = Some h →
  inst self !! _wrap_alias A = None →
  after_alias (after_alias self (A ++ " " ++ T)) A = set_aliases self (get_aliases self).
Proof.
  intros HneA HA HT Hh Hfree. unfold after_alias.
  rewrite (do_alias_bind self _ _ h); [| apply two_words_nonempty |]; last first.
  { rewrite split_two by done. unfold resolve_target. cbn [lookup list_lookup].
    by rewrite Hh. }
  rewrite split_two by done. cbn [hd fst]. cbv zeta.
  set (self1 := set_aliases _ _).
  assert (Hsplit : split " " A = [A]) by (by apply split_word).
  rewrite do_alias_unbind; [| done | by rewrite Hsplit].
  rewrite Hsplit. cbn [hd fst].
  assert (Hd : delattr self1 (_wrap_alias A)
               = Some (set_inst self1 (delete (_wrap_alias A) (inst self1)))).
  { apply delattr_Some. split; [| done]. subst self1. simpl.
    rewrite lookup_insert_eq. eauto. }
  rewrite Hd. apply refreshed_eq; try done.
  subst self1. simpl. by apply delete_insert_id.
Qed.

Lemma listing_returns self :
  aliases_bound self →
  do_alias self "" true =
    (self, Ok (PStr (join (listing_line self <$> elements (aliases self))))).
Proof.
  intros Hb. unfold do_alias. rewrite decide_False by (intros Hne; by apply Hne).
  rewrite listing_parts; [done |].
  apply Forall_forall. intros a Ha. by apply Hb, elem_of_elements.
Qed.

Lemma alias_session_bound self args :
  aliases_bound self → aliases_bound (alias_session self args).
Proof.
  revert self. induction args as [|a args IH]; intros self Hb; [done |].
  cbn [alias_session foldl]. apply IH. unfold after_alias.
  by apply do_alias_keeps_aliases_bound.
Qed.

(** X23: after construction and any run of [alias] commands, listing the
    aliases does not raise: every name in [aliases] is still bound, and
    [do_alias('', suppress=True)] returns one line for each of them and
    leaves the interpreter as it is. *)
Theorem alias_listing_never_raises class show enable force self0 args :
  AliasCmdInterpreter.__init__ class show enable force = Ok self0 →
  let self := alias_session self0 args in
  aliases_bound self ∧
  do_alias self "" true =
    (self, Ok (PStr (join (listing_line self <$> elements (aliases self))))).
Proof.
  intros Hinit self.
  assert (Hb : aliases_bound self).
  { apply alias_session_bound. by eapply init_aliases_bound. }
  split; [done | by apply listing_returns].
Qed.

(** X24: what [do_alias] can change, whatever its argument.  It leaves
    the class as it is.  On the instance it changes at most three things:
    the binding [alias_<name>] for the first word [<name>] of the argument,
    the [aliases] attribute, and the output.  Every other function looked
    up by name is what it was, so no command, help provider, completer or
    other alias is rebound or removed, and [SHOW_ALIAS],
    [completion_matches] and [lastcmd] are what they were.  With an
    argument nothing is written; without one no binding and no member of
    [aliases] changes. *)
Theorem do_alias_changes_are_confined self arg suppress :
  let self1 := (do_alias self arg suppress).1 in
  cls self1 = cls self ∧
  (∀ n, n ≠ _wrap_alias (hd "" (split " " arg)) →
        inst self1 !! n = inst self !! n ∧ getattr self1 n = getattr self n) ∧
  (∀ n, startswith n ALIAS_PREFIX = false → getattr self1 n = getattr self n) ∧
  SHOW_ALIAS self1 = SHOW_ALIAS self ∧
  completion_matches self1 = completion_matches self ∧
  lastcmd self1 = lastcmd self ∧
  (arg ≠ "" → stdout self1 = stdout self) ∧
  (arg = "" → inst self1 = inst self ∧ aliases self1 = aliases self).
Proof.
  cbv zeta. destruct (do_alias_frame self arg suppress) as (Hc & Hs & Hm & Hl).
  split_and!; try done.
  - intros n Hn. split; [| by apply do_alias_other_attrs].
    destruct (decide (arg = "")) as [->|Harg].
    + unfold do_alias. rewrite decide_False by (intros Hne; by apply Hne).
      destruct (mapM _ _); [| done]. by destruct suppress.
    + destruct (resolve_target self (split " " arg)) as [c|] eqn:Hres.
      * rewrite (do_alias_bind _ _ _ c) by done. simpl.
        by rewrite lookup_insert_ne.
      * rewrite do_alias_unbind by done. cbn [fst].
        destruct (delattr self _) as [s|] eqn:Hd; [| done].
        apply delattr_Some in Hd as [_ ->]. simpl. by rewrite lookup_delete_ne.
  - intros n Hn. apply do_alias_other_attrs. intros ->.
    unfold _wrap_alias in Hn. by rewrite startswith_app in Hn.
  - intros Harg. by destruct (do_alias_rebindable self arg suppress (mkfunc "" None 0) Harg).
  - intros ->. unfold do_alias. rewrite decide_False by (intros Hne; by apply Hne).
    destruct (mapM _ _); [| done]. by destruct suppress.
Qed.

(** X25: whenever [do_alias] changes the alias bindings of the instance,
    it leaves [aliases] equal to what [get_aliases()] then returns. *)
Theorem alias_change_refreshes_aliases self arg suppress :
  inst (do_alias self arg suppress).1 ≠ inst self →
  aliases (do_alias self arg suppress).1 = get_aliases (do_alias self arg suppress).1.
Proof.
  intros Hch. destruct (decide (arg = "")) as [->|Harg].
  - destruct Hch. unfold do_alias. rewrite decide_False by (intros Hne; by apply Hne).
    destruct (mapM _ _); [| done]. by destruct suppress.
  - destruct (do_alias_keeps_aliases_current self arg suppress Harg) as [E|E]; [| done].
    destruct Hch. by rewrite E.
Qed.

End alias_compose.

Lemma alias_binds_target_handler_witness :
  let r := AliasCmdInterpreter.do_alias (shell false) ("q" ++ " " ++ "EOF") false in
  r.2 = Ok PNone ∧
  AliasMix.getattr r.1 (AliasMix._wrap_alias "q") = Some AliasCmdInterpreter.do_EOF_func ∧
  "q" ∈ AliasMix.aliases r.1 ∧ AliasMix.aliases r.1 = AliasMix.get_aliases r.1 ∧
  AliasMix.stdout r.1 = AliasMix.stdout (shell false) ∧
  ∀ n, n ≠ AliasMix._wrap_alias "q" →
       AliasMix.getattr r.1 n = AliasMix.getattr (shell false) n.
Proof.
  apply (alias_binds_target_handler (shell false) "q" "EOF"
           AliasCmdInterpreter.do_EOF_func false).
  - reflexivity.
  - reflexivity.
  - vm_compute. reflexivity.
Defined.

Lemma alias_of_alias_outlives_it_witness :
  let self1 := after_alias (shell false) ("b" ++ " " ++ "a") in
  let self2 := after_alias self1 "a" in
  AliasMix.getattr self1 (AliasMix._wrap_alias "b") = Some AliasCmdInterpreter.do_alias_func ∧
  AliasMix.getattr self2 (AliasMix._wrap_alias "b") = Some AliasCmdInterpreter.do_alias_func ∧
  (AliasMix.cls (shell false) !! AliasMix._wrap_alias "a" = None →
   AliasMix.getattr self2 (AliasMix._wrap_alias "a") = None).
Proof.
  apply (alias_of_alias_outlives_it (shell false) "a" "b" AliasCmdInterpreter.do_alias_func).
  - discriminate.
  - reflexivity.
  - reflexivity.
  - discriminate.
  - vm_compute. reflexivity.
  - vm_compute. reflexivity.
Defined.

Lemma alias_rebinding_last_wins_witness :
  AliasCmdInterpreter.do_alias
      (AliasCmdInterpreter.do_alias (shell false) "q help" false).1
      ("q" ++ " " ++ "EOF") false
    = AliasCmdInterpreter.do_alias (shell false) ("q" ++ " " ++ "EOF") false.
Proof.
  apply (alias_rebinding_last_wins (shell false) "q help" "q" "EOF"
           AliasCmdInterpreter.do_EOF_func false).
  - discriminate.
  - reflexivity.
  - reflexivity.
  - reflexivity.
  - vm_compute. reflexivity.
Defined.

Lemma alias_bind_then_remove_restores_witness :
  after_alias (after_alias (shell false) ("q" ++ " " ++ "EOF")) "q"
    = AliasMix.set_aliases (shell false) (AliasMix.get_aliases (shell false)).
Proof.
  apply (alias_bind_then_remove_restores (shell false) "q" "EOF"
           AliasCmdInterpreter.do_EOF_func).
  - discriminate.
  - reflexivity.
  - reflexivity.
  - vm_compute. reflexivity.
  - vm_compute. reflexivity.
Defined.

Lemma alias_listing_never_raises_witness :
  let self := alias_session (shell false) ["q EOF"; "a"] in
  aliases_bound self ∧
  AliasCmdInterpreter.do_alias self "" true =
    (self, Ok (PStr (join (listing_line self <$> elements (AliasMix.aliases self))))).
Proof.
  apply (alias_listing_never_raises AliasCmdInterpreter.methods false true false
           (shell false) ["q EOF"; "a"]).
  vm_compute. reflexivity.
Defined.

Lemma alias_change_refreshes_aliases_witness :
  AliasMix.aliases (AliasCmdInterpreter.do_alias (shell false) "q EOF" false).1
    = AliasMix.get_aliases (AliasCmdInterpreter.do_alias (shell false) "q EOF" false).1.
Proof.
  apply (alias_change_refreshes_aliases (shell false) "q EOF" false).
  vm_compute. discriminate.
Defined.

(** ** The mix-ins side by side *)

Section mixins_agree.
Import AliasMix.
Implicit Types (self : t) (text : string) (l : list string).

Lemma StronglySorted_filter_le (P : string → Prop) `{!∀ x, Decision (P x)} l :
  StronglySorted String.le l → StronglySorted String.le (filter P l).
Proof.
  induction 1 as [|x l Hl IH Hx]; [constructor |].
  rewrite filter_cons. case_decide; [| done]. constructor; [done |].
  rewrite Forall_forall in Hx. apply Forall_forall.
  intros y [_ Hy]%list_elem_of_filter. by apply Hx.
Qed.

Lemma sorted_lists_equal l1 l2 :
  StronglySorted String.le l1 → StronglySorted String.le l2 →
  NoDup l1 → NoDup l2 → (∀ x, x ∈ l1 ↔ x ∈ l2) → l1 = l2.
Proof.
  intros Hs1 Hs2 Hn1 Hn2 Hel.
  apply (StronglySorted_unique String.le); [done | done |].
  by apply NoDup_Permutation.
Qed.

Lemma elem_of_class_names self n :
  n ∈ CacheCompleteNames.get_names self ↔ is_Some (cls self !! n).
Proof.
  unfold CacheCompleteNames.get_names.
  rewrite merge_sort_Permutation, elem_of_elements. apply elem_of_dom.
Qed.

Lemma class_names_sorted self :
  StronglySorted String.le (CacheCompleteNames.get_names self) ∧
  NoDup (CacheCompleteNames.get_names self).
Proof.
  unfold CacheCompleteNames.get_names. split.
  - apply (StronglySorted_merge_sort _).
  - rewrite merge_sort_Permutation. apply NoDup_elements.
Qed.

(** X26: the two mix-ins agree on completion where they overlap: as long
    as the instance dictionary holds no attribute named [do_...], which the
    alias command never creates, [CacheCompleteMix.completenames] over the
    names of the class gives the same list as [AliasMix.completenames] with
    [SHOW_ALIAS] off, and the two [completedefault] give the same list. *)
Theorem mixins_agree_on_commands self text line b e :
  (∀ n, startswith n "do_" = true → inst self !! n = None) →
  (SHOW_ALIAS self = false →
   CacheCompleteNames.completenames self text = completenames self text) ∧
  CacheCompleteNames.completedefault self text line b e
    = completedefault self text line b e.
Proof.
  intros Hinst.
  assert (Heq : ∀ (P : string → Prop) `{!∀ x, Decision (P x)},
            (∀ n, P n → startswith n "do_" = true) →
            filter P (CacheCompleteNames.get_names self) = filter P (get_names self)).
  { intros P ? HP. destruct (class_names_sorted self) as [Hs Hn].
    apply sorted_lists_equal.
    - by apply StronglySorted_filter_le.
    - apply StronglySorted_filter_le, dir_sorted.
    - by apply NoDup_filter.
    - apply NoDup_filter, NoDup_dir.
    - intros n. rewrite !list_elem_of_filter, elem_of_class_names.
      unfold get_names. rewrite elem_of_dir.
      split; intros [Hp Hin]; (split; [done |]);
        by rewrite getattr_cls in * by auto. }
  split.
  - intros Hshow. unfold CacheCompleteNames.completenames, completenames.
    rewrite Hshow, app_nil_r. f_equal. apply Heq.
    intros n [Hp _]%andb_True. apply Is_true_true in Hp.
    by eapply startswith_trans.
  - unfold CacheCompleteNames.completedefault, completedefault. f_equal. apply Heq.
    intros n [Hp _]%andb_True. by apply Is_true_true in Hp.
Qed.

End mixins_agree.

(** ** Help sections without a header *)

Section hidden_sections.
Import AliasMix.
Implicit Types (self : t) (base : Host).

(** X27: with [HideNoneDocMix], [do_help] without a topic prints the
    sections whose header is set, in the order documented, miscellaneous,
    undocumented, and leaves out each section whose header is [None]; with
    all three headers [None] it writes the leader line and nothing else. *)
Theorem help_sections_without_header_are_left_out base self :
  let t := help_topics self in
  let section (header : option string) (cmds : list string) (s : AliasMix.t) :=
    match header with
    | Some _ => @print_topics base header cmds 15 80 s
    | None => s
    end in
  let leader := write self (@doc_leader base ++ String "010" "") in
  do_help (H := HideNoneDocMix.host base) self "" =
    (section (@undoc_header base) (cmds_undoc t)
       (section (@misc_header base) (help t)
          (section (@doc_header base) (cmds_doc t) leader)), Ok PNone) ∧
  (@doc_header base = None → @misc_header base = None → @undoc_header base = None →
   do_help (H := HideNoneDocMix.host base) self "" = (leader, Ok PNone)).
Proof.
  cbv zeta.
  assert (E : do_help (H := HideNoneDocMix.host base) self "" =
    (HideNoneDocMix.print_topics (@print_topics base) (@undoc_header base)
       (cmds_undoc (help_topics self)) 15 80
       (HideNoneDocMix.print_topics (@print_topics base) (@misc_header base)
          (help (help_topics self)) 15 80
          (HideNoneDocMix.print_topics (@print_topics base) (@doc_header base)
             (cmds_doc (help_topics self)) 15 80
             (write self (@doc_leader base ++ String "010" "")))), Ok PNone)).
  { unfold do_help. rewrite decide_False by (intros Hne; by apply Hne). reflexivity. }
  split; [exact E |].
  intros Hd Hm Hu. rewrite E, Hd, Hm, Hu. reflexivity.
Qed.

End hidden_sections.

Lemma mixins_agree_on_commands_witness :
  (AliasMix.SHOW_ALIAS (shell false) = false →
   CacheCompleteNames.completenames (shell false) "he"
     = AliasMix.completenames (shell false) "he") ∧
  CacheCompleteNames.completedefault (shell false) "he" "a he" 2 4
    = AliasMix.completedefault (shell false) "he" "a he" 2 4.
Proof.
  apply (mixins_agree_on_commands (shell false) "he" "a he" 2 4).
  intros n Hn.
  assert (E : AliasMix.inst (shell false)
              = {[ "alias_a" := AliasCmdInterpreter.do_alias_func ]})
    by (vm_compute; reflexivity).
  rewrite E. apply lookup_singleton_None. intros <-. discriminate Hn.
Defined.
